(** * Key-value store server: the store, its persistence file and the
      command interpreter of [server.py].

    Text is modelled as [string]: a sequence of characters whose codes
    0..255 stand for the code points U+0000..U+00FF of a Python [str].
    The persistence file is one text file on a POSIX system, so that what
    [file.write] is given is what the file holds. *)

From Stdlib Require Import String Ascii List Bool NArith Arith Lia Permutation.
Import ListNotations.
Open Scope list_scope.
Open Scope string_scope.

(** ** Characters and the [str] methods the program calls *)

Definition TAB : ascii := ascii_of_N 9.
Definition LF : ascii := ascii_of_N 10.
Definition CR : ascii := ascii_of_N 13.

Definition nl : string := String LF EmptyString.
Definition tab : string := String TAB EmptyString.

(** [str.isspace] on one character, as [str.strip] and [str.split] use it:
    U+0009..U+000D, U+001C..U+001F, U+0020, U+0085 and U+00A0. *)
Definition isspace (c : ascii) : bool :=
  let n := N_of_ascii c in
  ((9 <=? n) && (n <=? 13) || (28 <=? n) && (n <=? 32)
   || (n =? 133) || (n =? 160))%N.

Definition is_empty (s : string) : bool :=
  match s with EmptyString => true | String _ _ => false end.

(** [s.lstrip()] *)
Fixpoint lstrip (s : string) : string :=
  match s with
  | EmptyString => EmptyString
  | String c s' => if isspace c then lstrip s' else s
  end.

(** [s.rstrip()] *)
Fixpoint rstrip (s : string) : string :=
  match s with
  | EmptyString => EmptyString
  | String c s' =>
      let r := rstrip s' in
      if is_empty r && isspace c then EmptyString else String c r
  end.

(** [s.strip()] *)
Definition strip (s : string) : string := lstrip (rstrip s).

(** [s.split()]: the maximal runs of characters that are not whitespace. *)
Fixpoint split (s : string) : list string :=
  match s with
  | EmptyString => []
  | String c s' =>
      if isspace c then split s'
      else
        match s' with
        | EmptyString => [String c EmptyString]
        | String c' _ =>
            if isspace c' then String c EmptyString :: split s'
            else
              match split s' with
              | t :: ts => String c t :: ts
              | [] => [String c EmptyString]
              end
        end
  end.

(** [s.split("\t", 1)]: [(a, Some b)] is the two-element list [[a, b]] cut
    at the first tab, [(s, None)] the one-element list [[s]] of a string
    without a tab. *)
Fixpoint split_tab (s : string) : string * option string :=
  match s with
  | EmptyString => (EmptyString, None)
  | String c s' =>
      if Ascii.eqb c TAB then (EmptyString, Some s')
      else let '(a, b) := split_tab s' in (String c a, b)
  end.

(** Code points of a string, and [s.upper()] as a list of code points: the
    upper case of U+00B5 and U+00FF lies beyond U+00FF and that of U+00DF
    is the two letters SS.  A string here holds code points up to U+00FF
    only.  Of the code points beyond, U+017F and U+0131 have the upper
    case S and I: a word spelt with them can upper-case into a verb, and
    nothing below speaks of such words. *)
Definition codepoints (s : string) : list N :=
  map N_of_ascii (list_ascii_of_string s).

Definition upper_char (c : ascii) : list N :=
  let n := N_of_ascii c in
  if ((97 <=? n) && (n <=? 122))%N then [(n - 32)%N]
  else if (n =? 181)%N then [924%N]
  else if (n =? 223)%N then [83%N; 83%N]
  else if ((224 <=? n) && (n <=? 254) && negb (n =? 247))%N then [(n - 32)%N]
  else if (n =? 255)%N then [376%N]
  else [n].

Definition upper (s : string) : list N :=
  flat_map upper_char (list_ascii_of_string s).

Definition cp_eqb (a b : list N) : bool :=
  if list_eq_dec N.eq_dec a b then true else false.

(** Iterating over a file opened in text mode: the lines of its content,
    each with its terminator, where a line ends at LF, at CR or at CR LF
    and the terminator read is LF in all three cases. *)
Fixpoint readlines (s : string) : list string :=
  match s with
  | EmptyString => []
  | String c s' =>
      if Ascii.eqb c LF then nl :: readlines s'
      else if Ascii.eqb c CR then
        match s' with
        | String c' s'' =>
            if Ascii.eqb c' LF then nl :: readlines s''
            else nl :: readlines s'
        | EmptyString => [nl]
        end
      else
        match readlines s' with
        | l :: ls => String c l :: ls
        | [] => [String c EmptyString]
        end
  end.

(** ** The dictionary [self.store]

    A Python [dict] keeps its items in insertion order and [save] and
    [print_store] walk them in that order, so the dictionary is the list of
    its items; its keys are pairwise different ([uniq]). *)

Definition dict := list (string * string).

Definition keys (d : dict) : list string := map fst d.

(** [d[k]] where [k in d] *)
Fixpoint dict_get (d : dict) (k : string) : option string :=
  match d with
  | [] => None
  | (k', v') :: r => if String.eqb k' k then Some v' else dict_get r k
  end.

(** [k in d] *)
Definition dict_mem (d : dict) (k : string) : bool :=
  match dict_get d k with Some _ => true | None => false end.

(** [d[k] = v]: a present key keeps its place, a new one goes last. *)
Fixpoint dict_set (d : dict) (k v : string) : dict :=
  match d with
  | [] => [(k, v)]
  | (k', v') :: r =>
      if String.eqb k' k then (k', v) :: r else (k', v') :: dict_set r k v
  end.

(** [del d[k]] *)
Fixpoint dict_del (d : dict) (k : string) : dict :=
  match d with
  | [] => []
  | (k', v') :: r =>
      if String.eqb k' k then r else (k', v') :: dict_del r k
  end.

Fixpoint uniq (l : list string) : bool :=
  match l with
  | [] => true
  | k :: r => negb (existsb (String.eqb k) r) && uniq r
  end.

(** ** The world outside the store object

    [file] is the content of the file at [self.filepath] ([None]: there is
    no such file); [trace] records what the process did to the outside,
    oldest first.  [wfail] says whether writing the file raises, with the
    text of the exception, and [wtorn] where: [None], [open] raises and the
    file is left as it was; [Some n], [open] has emptied the file and [n]
    characters of what [save] writes reach it before [write] or the closing
    of the file raises (whole characters: a file cut inside the bytes of
    one character is not modelled).  [rfail] says whether reading the file raises, and
    [rtorn] where: [None], [open] raises; [Some n], [n] lines are read
    before the iteration raises. *)

Inductive event : Type :=
| Print (line : string)
| OpenRead
| OpenWrite.

Record Env : Type := mkWorld {
  file : option string;
  wfail : option string;
  rfail : option string;
  trace : list event;
  wtorn : option nat;
  rtorn : option nat
}.

(** A world in which what fails, if anything, is [open]. *)
Definition mkEnv (f w r : option string) (t : list event) : Env :=
  mkWorld f w r t None None.

Definition emit (ev : event) (e : Env) : Env :=
  mkWorld (file e) (wfail e) (rfail e) (trace e ++ [ev])%list
          (wtorn e) (rtorn e).

Definition print (line : string) (e : Env) : Env := emit (Print line) e.

Definition write_file (content : string) (e : Env) : Env :=
  mkWorld (Some content) (wfail e) (rfail e) (trace e) (wtorn e) (rtorn e).

(** The first [n] characters of a string. *)
Fixpoint prefix (n : nat) (s : string) : string :=
  match n, s with
  | S n', String c s' => String c (prefix n' s')
  | _, _ => EmptyString
  end.

(** ** KeyValueStore *)

(** One turn of the loop of [load]. *)
Definition parse_line (line : string) : option (string * string) :=
  let line := strip line in
  if is_empty line then None
  else
    match split_tab line with
    | (key, Some value) => Some (key, value)
    | (_, None) => None
    end.

Definition load_line (st : dict) (line : string) : dict :=
  match parse_line line with
  | Some (key, value) => dict_set st key value
  | None => st
  end.

(** [load]: the [try] holds the [open] and the whole loop, so that a
    failure after [n] lines leaves in the store what those lines gave. *)
Definition load (st : dict) (e : Env) : dict * Env :=
  match file e with
  | None => (st, e)
  | Some content =>
      let e := emit OpenRead e in
      match rfail e with
      | Some msg =>
          let st := match rtorn e with
                    | Some n =>
                        fold_left load_line (firstn n (readlines content)) st
                    | None => st
                    end in
          (st, print ("Error loading data: " ++ msg) e)
      | None => (fold_left load_line (readlines content) st, e)
      end
  end.

(** [KeyValueStore(filepath)]: an empty dictionary, then [load]. *)
Definition init (e : Env) : dict * Env := load [] e.

(** What [save] writes for one item, and for all of them. *)
Definition entry_line (kv : string * string) : string :=
  fst kv ++ tab ++ snd kv ++ nl.

Definition render (st : dict) : string :=
  fold_right (fun kv acc => entry_line kv ++ acc) EmptyString st.

(** [save]: the [try] holds the [open], the writes and the closing of
    the file; [open(..., "w")] empties the file, so that a failure after
    it leaves the part of the text that was written. *)
Definition save (st : dict) (e : Env) : Env :=
  let e := emit OpenWrite e in
  match wfail e with
  | Some msg =>
      let e := match wtorn e with
               | Some n => write_file (prefix n (render st)) e
               | None => e
               end in
      print ("[ERROR] Error saving data: " ++ msg) e
  | None => write_file (render st) e
  end.

Definition set (key value : string) (st : dict) (e : Env)
  : string * dict * Env :=
  let e := print ("[DEBUG] Setting key '" ++ key ++ "' to value '"
                  ++ value ++ "'") e in
  let st := dict_set st key value in
  let e := print "[DEBUG] Calling save()" e in
  let e := save st e in
  let e := print "[DEBUG] Finished save()" e in
  ("Added key '" ++ key ++ "' with value '" ++ value ++ "'" ++ nl, st, e).

Definition get (key : string) (st : dict) : string :=
  match dict_get st key with
  | Some value => value
  | None => "Key '" ++ key ++ "' not found."
  end.

Definition remove (key : string) (st : dict) (e : Env)
  : string * dict * Env :=
  if dict_mem st key then
    let st := dict_del st key in
    let e := save st e in
    ("Removed key '" ++ key ++ "'." ++ nl, st, e)
  else ("Key '" ++ key ++ "' not found.", st, e).

Definition print_store (st : dict) : string :=
  match st with
  | [] => "Store is empty." ++ nl
  | _ =>
      fold_left
        (fun response kv =>
           response ++ "[KEY]: " ++ fst kv ++ tab ++ "[VALUE]: " ++ snd kv ++ nl)
        st EmptyString
  end.

(** ** CommandParser *)

Definition parse_and_execute (command : string) (st : dict) (e : Env)
  : string * dict * Env :=
  let command := strip command in
  if is_empty command then ("ERROR: Empty command" ++ nl, st, e)
  else
    let tokens := split command in
    match tokens with
    | [] => ("ERROR: Invalid command" ++ nl, st, e)
    | tok0 :: args =>
        let cmd := upper tok0 in
        if cp_eqb cmd (codepoints "SET") then
          match args with
          | [key; value] => set key value st e
          | _ => ("ERROR: SET command requires 2 arguments: key and value"
                  ++ nl, st, e)
          end
        else if cp_eqb cmd (codepoints "GET") then
          match args with
          | [key] => (get key st, st, e)
          | _ => ("ERROR: GET command requires 1 argument: key" ++ nl, st, e)
          end
        else if cp_eqb cmd (codepoints "REMOVE") then
          match args with
          | [key] => remove key st e
          | _ => ("ERROR: REMOVE command requires 1 argument: key" ++ nl,
                  st, e)
          end
        else if cp_eqb cmd (codepoints "PRINT") then
          (print_store st, st, e)
        else ("ERROR: Unknown command '" ++ tok0 ++ "'" ++ nl, st, e)
    end.

(** A session: the commands of one connection, answered in turn. *)
Fixpoint session (commands : list string) (st : dict) (e : Env)
  : list string * dict * Env :=
  match commands with
  | [] => ([], st, e)
  | c :: cs =>
      let '(r, st1, e1) := parse_and_execute c st e in
      let '(rs, st2, e2) := session cs st1 e1 in
      (r :: rs, st2, e2)
  end.

(** ** Which entries the file format carries

    [save] escapes nothing and [load] strips each line before it cuts it at
    the first tab, so an entry comes back from the file as it was written
    exactly when it is [clean_entry]. *)

Fixpoint mem_char (c : ascii) (s : string) : bool :=
  match s with
  | EmptyString => false
  | String c' s' => Ascii.eqb c' c || mem_char c s'
  end.

Definition no_break (s : string) : bool :=
  negb (mem_char LF s) && negb (mem_char CR s).

Definition starts_space (s : string) : bool :=
  match s with EmptyString => false | String c _ => isspace c end.

Fixpoint ends_space (s : string) : bool :=
  match s with
  | EmptyString => false
  | String c EmptyString => isspace c
  | String _ s' => ends_space s'
  end.

Definition clean_key (k : string) : bool :=
  negb (is_empty k) && negb (mem_char TAB k) && no_break k
  && negb (starts_space k).

Definition clean_value (v : string) : bool :=
  negb (is_empty v) && no_break v && negb (ends_space v).

Definition clean_entry (kv : string * string) : bool :=
  clean_key (fst kv) && clean_value (snd kv).

Definition clean_store (st : dict) : bool := forallb clean_entry st.

(** A token of a command line: not empty, no whitespace in it. *)
Fixpoint no_space (s : string) : bool :=
  match s with
  | EmptyString => true
  | String c s' => negb (isspace c) && no_space s'
  end.

Definition token (s : string) : bool := negb (is_empty s) && no_space s.

(** The entries [load] finds in a file content, line by line. *)
Definition parsed_lines (content : string) : list (string * string) :=
  flat_map (fun l => match parse_line l with Some kv => [kv] | None => [] end)
           (readlines content).

(** The lines of a file content that [load] reads as an entry of key [k]. *)
Definition lines_for (k : string) (content : string)
  : list (string * string) :=
  filter (fun kv => String.eqb (fst kv) k) (parsed_lines content).

(** The stores of the running program: pairwise different keys, entries
    that the file format carries. *)
Definition store_ok (st : dict) : Prop :=
  uniq (keys st) = true /\ clean_store st = true.

(** A fresh store object built on the file that [e] holds. *)
Definition fresh_load (e : Env) : dict := fst (init e).

(** A line as [readlines] yields it: no line break in it but a last LF. *)
Fixpoint line_ok (l : string) : bool :=
  match l with
  | EmptyString => true
  | String c EmptyString => negb (Ascii.eqb c CR)
  | String c l' => negb (Ascii.eqb c LF) && negb (Ascii.eqb c CR) && line_ok l'
  end.

(** ** Statements about the file *)

(** The file holds what [save] writes for the mapping [st]. *)
Definition agrees (st : dict) (e : Env) : Prop := file e = Some (render st).

(** The file has exactly one line for key [k], and it carries [v]. *)
Definition one_line_for (k v : string) (e : Env) : Prop :=
  exists content, file e = Some content /\ lines_for k content = [(k, v)].

(** Between [e] and [e'] the file was opened for writing. *)
Definition attempted_write (e e' : Env) : Prop :=
  exists evs, trace e' = (trace e ++ evs)%list /\ In OpenWrite evs.

(** Saving the mapping and building a fresh store from the file gives the
    mapping back. *)
Definition roundtrips (st : dict) (e : Env) : Prop :=
  fresh_load (save st e) = st.

(** The key has no tab and neither key nor value has a newline. *)
Definition no_tab_no_newline (k v : string) : bool :=
  negb (mem_char TAB k) && negb (mem_char LF k) && negb (mem_char LF v).

Fixpoint last_char (s : string) : option ascii :=
  match s with
  | EmptyString => None
  | String c EmptyString => Some c
  | String _ s' => last_char s'
  end.

Definition not_found (key : string) : string := "Key '" ++ key ++ "' not found.".

Definition env0 : Env := mkEnv None None None [].

(** ** Concurrent sessions

    Each connection is served by a thread of its own and all threads share
    one store object.  A thread inside [set(key, value)] goes through the
    statements of [set] one at a time; between two statements any other
    thread may run.  [self.lock] is held by at most one thread; a thread
    that finds it held by another waits at [with self.lock].  In the loop
    of [save] a [write] raises when the file cannot take all of its text,
    and the closing of the file raises when the loop is over and [wfail]
    says that the writing fails. *)

Inductive pc : Type :=
| AtLock                 (* at [with self.lock:] *)
| AtStore                (* lock held, at [self.store[key] = value] *)
| AtSave                 (* lock held, at the call of [save] *)
| AtWrite (i : nat)      (* in the loop of [save], [i] items written *)
| AtExit                 (* [save] has returned, at the end of the [with] *)
| Done (r : string).     (* [set] has returned [r] *)

Definition thread : Type := string * pc.

Record cstate : Type := mkC {
  cstore : dict;
  cenv : Env;
  clock : option nat;
  cthreads : list thread
}.

Fixpoint upd {A : Type} (n : nat) (x : A) (l : list A) : list A :=
  match l, n with
  | [], _ => []
  | _ :: r, O => x :: r
  | y :: r, S n' => y :: upd n' x r
  end.

Definition append_file (text : string) (e : Env) : Env :=
  match file e with
  | Some content => write_file (content ++ text) e
  | None => write_file text e
  end.

(** One statement of thread [t], which runs [set(key, value)]; [None] when
    the thread cannot move (it waits for the lock, or it has returned). *)
Definition step (key : string) (t : nat) (s : cstate) : option cstate :=
  match nth_error (cthreads s) t with
  | None => None
  | Some (value, p) =>
      let goto p' st e l := Some (mkC st e l (upd t (value, p') (cthreads s))) in
      match p with
      | AtLock =>
          match clock s with
          | None => goto AtStore (cstore s) (cenv s) (Some t)
          | Some _ => None
          end
      | AtStore =>
          let e := print ("[DEBUG] Setting key '" ++ key ++ "' to value '"
                          ++ value ++ "'") (cenv s) in
          goto AtSave (dict_set (cstore s) key value) e (clock s)
      | AtSave =>
          let e := print "[DEBUG] Calling save()" (cenv s) in
          let e := emit OpenWrite e in
          match wfail e, wtorn e with
          | Some msg, None =>
              let e := print ("[ERROR] Error saving data: " ++ msg) e in
              let e := print "[DEBUG] Finished save()" e in
              goto AtExit (cstore s) e (clock s)
          | _, _ =>
              goto (AtWrite 0) (cstore s) (write_file EmptyString e) (clock s)
          end
      | AtWrite i =>
          let written :=
            match file (cenv s) with Some c => c | None => EmptyString end in
          let raise text msg :=
            let e := write_file text (cenv s) in
            let e := print ("[ERROR] Error saving data: " ++ msg) e in
            let e := print "[DEBUG] Finished save()" e in
            goto AtExit (cstore s) e (clock s) in
          match nth_error (cstore s) i, wfail (cenv s), wtorn (cenv s) with
          | Some kv, Some msg, Some n =>
              if Nat.ltb n (String.length (written ++ entry_line kv)) then
                raise (prefix n (written ++ entry_line kv)) msg
              else
                goto (AtWrite (S i)) (cstore s)
                     (append_file (entry_line kv) (cenv s)) (clock s)
          | Some kv, _, _ =>
              goto (AtWrite (S i)) (cstore s)
                   (append_file (entry_line kv) (cenv s)) (clock s)
          | None, Some msg, Some _ => raise written msg
          | None, _, _ =>
              goto AtExit (cstore s)
                   (print "[DEBUG] Finished save()" (cenv s)) (clock s)
          end
      | AtExit =>
          goto (Done ("Added key '" ++ key ++ "' with value '" ++ value
                      ++ "'" ++ nl))
               (cstore s) (cenv s) None
      | Done _ => None
      end
  end.

(** A schedule names the thread that runs next, again and again; a thread
    that cannot move when its turn comes leaves the state as it is. *)
Definition turn (key : string) (s : cstate) (t : nat) : cstate :=
  match step key t s with Some s' => s' | None => s end.

Definition run (key : string) (schedule : list nat) (s : cstate) : cstate :=
  fold_left (turn key) schedule s.

(** [M] threads, one per value, all about to call [set(key, value)]. *)
Definition start (st : dict) (e : Env) (values : list string) : cstate :=
  mkC st e None (map (fun v => (v, AtLock)) values).

Definition is_done (th : thread) : bool :=
  match snd th with Done _ => true | _ => false end.

Definition all_done (s : cstate) : bool := forallb is_done (cthreads s).

(** Holding the lock: between [with self.lock:] and the end of its block. *)
Definition in_cs (p : pc) : bool :=
  match p with
  | AtStore | AtSave | AtWrite _ | AtExit => true
  | AtLock | Done _ => false
  end.

(** Past [self.store[key] = value]. *)
Definition has_stored (p : pc) : bool :=
  match p with
  | AtSave | AtWrite _ | AtExit | Done _ => true
  | AtLock | AtStore => false
  end.

(** Statements that a thread at [p] still has to run, in a store of [n]
    items. *)
Definition todo (n : nat) (p : pc) : nat :=
  match p with
  | AtLock => n + 5
  | AtStore => n + 4
  | AtSave => n + 3
  | AtWrite i => (n - i) + 2
  | AtExit => 1
  | Done _ => 0
  end.

(** What holds in every state that threads calling [set(key, value)], one
    for each of [values], reach from the store [st0] in the world [e0]. *)
Record inv (key : string) (values : list string) (st0 : dict) (e0 : Env)
  (s : cstate) : Prop := mkInv {
  inv_values : map fst (cthreads s) = values;
  inv_wfail : wfail (cenv s) = wfail e0;
  inv_owner : forall t v p,
    nth_error (cthreads s) t = Some (v, p) -> in_cs p = true ->
    clock s = Some t;
  inv_held : forall t,
    clock s = Some t ->
    exists v p, nth_error (cthreads s) t = Some (v, p) /\ in_cs p = true;
  inv_stored :
    (exists t v p, nth_error (cthreads s) t = Some (v, p)
                   /\ has_stored p = true) ->
    exists v, In v values /\ dict_get (cstore s) key = Some v;
  inv_others : forall k, k <> key -> dict_get (cstore s) k = dict_get st0 k;
  inv_keys : NoDup (keys st0) -> NoDup (keys (cstore s));
  inv_length : length (cstore s) <= S (length st0);
  inv_fresh : dict_mem (cstore s) key = false ->
              length (cstore s) = length st0;
  inv_write : forall t v i,
    nth_error (cthreads s) t = Some (v, AtWrite i) ->
    file (cenv s) = Some (render (firstn i (cstore s)));
  inv_exit : forall t v,
    nth_error (cthreads s) t = Some (v, AtExit) ->
    wfail e0 = None -> agrees (cstore s) (cenv s);
  inv_free :
    clock s = None ->
    (exists t v r, nth_error (cthreads s) t = Some (v, Done r)) ->
    wfail e0 = None -> agrees (cstore s) (cenv s)
}.

(** Statements still to run, all threads together. *)
Definition measure (st0 : dict) (s : cstate) : nat :=
  list_sum (map (fun th => todo (S (length st0)) (snd th)) (cthreads s)).

(** ** More about the store *)

(** The value of the last pair of key [k] in a list of pairs. *)
Fixpoint last_value (k : string) (l : list (string * string))
  : option string :=
  match l with
  | [] => None
  | (k', v) :: r =>
      match last_value k r with
      | Some v' => Some v'
      | None => if String.eqb k' k then Some v else None
      end
  end.

(** What [print_store] adds to its response for one item. *)
Definition listing_line (kv : string * string) : string :=
  "[KEY]: " ++ fst kv ++ tab ++ "[VALUE]: " ++ snd kv ++ nl.

(** The listing of [print_store], item after item. *)
Definition listing (st : dict) : string :=
  fold_right (fun kv acc => listing_line kv ++ acc) EmptyString st.

(** ** More about the interpreter *)

(** [s] spells the word [word] (code points of capital letters), each
    letter in upper or in lower case. *)
Fixpoint ci_match (word : list N) (s : string) : bool :=
  match word, s with
  | [], EmptyString => true
  | x :: w, String c s' =>
      let n := N_of_ascii c in
      ((n =? x) || (n =? x + 32))%N && ci_match w s'
  | _, _ => false
  end.

(** Capital letters A..Z only, and no S next to an S. *)
Fixpoint plain_word (word : list N) : bool :=
  match word with
  | [] => true
  | x :: w =>
      ((65 <=? x) && (x <=? 90))%N
      && match w with
         | y :: _ => negb ((x =? 83) && (y =? 83))%N
         | [] => true
         end
      && plain_word w
  end.

(** A restart would find the mapping [st]: the file can be written and
    read, and a fresh store built on it holds [st]. *)
Definition durable (st : dict) (e : Env) : Prop :=
  store_ok st /\ fresh_load e = st /\ wfail e = None /\ rfail e = None.

(** ** Server.handle_client

    What the socket of one connection does is given as a script, one entry
    for each turn of the loop: [recv] returns no data ([Closed]); [recv] or
    [decode] raises ([Broken], with the text of the exception); or [recv]
    returns data that decodes to [text], and the [sendall] of the answer,
    if it comes to that, raises or not ([Message]). *)

(** [s.lower()] on one character, and on a string. *)
Definition lower_char (c : ascii) : ascii :=
  let n := N_of_ascii c in
  if ((65 <=? n) && (n <=? 90))%N then ascii_of_N (n + 32)
  else if ((192 <=? n) && (n <=? 222) && negb (n =? 215))%N
       then ascii_of_N (n + 32)
  else c.

Fixpoint lower (s : string) : string :=
  match s with
  | EmptyString => EmptyString
  | String c s' => String (lower_char c) (lower s')
  end.

Inductive socket_event : Type :=
| Closed
| Broken (msg : string)
| Message (text : string) (send_error : option string).

(** The loop of [handle_client] for the client [addr]: the answers whose
    [sendall] returned, the store, the world outside, and whether the loop
    was left ([false]: the script is at its end and the thread waits in
    [recv]). *)
Fixpoint handle_loop (addr : string) (script : list socket_event)
         (st : dict) (e : Env) : list string * dict * Env * bool :=
  match script with
  | [] => ([], st, e, false)
  | Closed :: _ =>
      ([], st, print ("Client " ++ addr ++ " disconnected.") e, true)
  | Broken msg :: _ =>
      ([], st, print ("Error handling client " ++ addr ++ ": " ++ msg) e,
       true)
  | Message text send_error :: rest =>
      let message := strip text in
      let e := print ("Received from " ++ addr ++ ": " ++ message) e in
      if String.eqb (lower message) "quit" then
        ([], st, print ("Client " ++ addr ++ " requested to quit.") e, true)
      else
        let '(response, st, e) := parse_and_execute message st e in
        match send_error with
        | Some msg =>
            ([], st,
             print ("Error handling client " ++ addr ++ ": " ++ msg) e, true)
        | None =>
            let e := print ("Response sent to " ++ addr ++ ": "
                            ++ strip response) e in
            let '(sent, st, e, ended) := handle_loop addr rest st e in
            (response :: sent, st, e, ended)
        end
  end.

Definition handle_client (addr : string) (script : list socket_event)
           (st : dict) (e : Env) : list string * dict * Env * bool :=
  let e := print ("Connection from " ++ addr) e in
  let '(sent, st, e, ended) := handle_loop addr script st e in
  (sent, st,
   if ended then print ("Connection with " ++ addr ++ " closed.") e else e,
   ended).

(** The messages of a script that are executed, and those whose answer is
    sent: the stripped texts up to the first turn that leaves the loop. *)
Definition is_quit (text : string) : bool :=
  String.eqb (lower (strip text)) "quit".

Fixpoint executed (script : list socket_event) : list string :=
  match script with
  | Message text send_error :: rest =>
      if is_quit text then []
      else strip text :: match send_error with
                         | None => executed rest
                         | Some _ => []
                         end
  | _ => []
  end.

Fixpoint delivered (script : list socket_event) : list string :=
  match script with
  | Message text None :: rest =>
      if is_quit text then [] else strip text :: delivered rest
  | _ => []
  end.
(** * Properties *)

Example split_ex : split "  SET  a 1 " = ["SET"; "a"; "1"].
Proof. reflexivity. Qed.

Example strip_ex : strip ("  a b " ++ nl) = "a b".
Proof. reflexivity. Qed.

Example session_ex :
  fst (fst (session ["SET a 1"; "GET a"; "print"; "REMOVE a"] []
              (mkEnv None None None []))) =
  ["Added key 'a' with value '1'" ++ nl; "1";
   "[KEY]: a" ++ tab ++ "[VALUE]: 1" ++ nl; "Removed key 'a'." ++ nl].
Proof. reflexivity. Qed.

(** ** Lemmas on strings *)

Lemma isspace_TAB : isspace TAB = true.
Proof. reflexivity. Qed.

Lemma isspace_LF : isspace LF = true.
Proof. reflexivity. Qed.

Lemma isspace_CR : isspace CR = true.
Proof. reflexivity. Qed.

Lemma not_space_neq (c d : ascii) :
  isspace c = false -> isspace d = true -> Ascii.eqb c d = false.
Proof.
  intros Hc Hd. destruct (Ascii.eqb c d) eqn:E; [|reflexivity].
  apply Ascii.eqb_eq in E. congruence.
Qed.

Lemma append_empty_r (s : string) : s ++ EmptyString = s.
Proof. induction s; simpl; congruence. Qed.

Lemma append_assoc (a b c : string) : (a ++ b) ++ c = a ++ b ++ c.
Proof. induction a; simpl; congruence. Qed.

Lemma mem_char_app (c : ascii) (a b : string) :
  mem_char c (a ++ b) = mem_char c a || mem_char c b.
Proof.
  induction a as [|x a IH]; simpl; [reflexivity|].
  now rewrite IH, orb_assoc.
Qed.

Lemma lstrip_id (s : string) : starts_space s = false -> lstrip s = s.
Proof. destruct s; simpl; [reflexivity|]. now intros ->. Qed.

Lemma lstrip_starts (s : string) : starts_space (lstrip s) = false.
Proof.
  induction s as [|c s IH]; simpl; [reflexivity|].
  destruct (isspace c) eqn:E; [exact IH|]. simpl. exact E.
Qed.

Lemma lstrip_mem (c : ascii) (s : string) :
  mem_char c (lstrip s) = true -> mem_char c s = true.
Proof.
  induction s as [|x s IH]; simpl; [congruence|].
  destruct (isspace x); simpl; intros H.
  - rewrite (IH H). apply orb_true_r.
  - exact H.
Qed.

Lemma rstrip_mem (c : ascii) (s : string) :
  mem_char c (rstrip s) = true -> mem_char c s = true.
Proof.
  induction s as [|x s IH]; simpl; [congruence|].
  destruct (is_empty (rstrip s) && isspace x); simpl; [congruence|].
  intros H. apply orb_true_iff in H. destruct H as [H|H].
  - now rewrite H.
  - rewrite (IH H). apply orb_true_r.
Qed.

Lemma rstrip_ends (s : string) : ends_space (rstrip s) = false.
Proof.
  induction s as [|c s IH]; simpl; [reflexivity|].
  destruct (rstrip s) as [|y r] eqn:R; simpl.
  - destruct (isspace c) eqn:E; simpl; [reflexivity|exact E].
  - exact IH.
Qed.

Lemma rstrip_id (s : string) : ends_space s = false -> rstrip s = s.
Proof.
  induction s as [|c s IH]; simpl; [reflexivity|].
  destruct s as [|y r].
  - simpl. now intros ->.
  - intros H. rewrite (IH H). reflexivity.
Qed.

Lemma rstrip_nl (s : string) : rstrip (s ++ nl) = rstrip s.
Proof.
  induction s as [|c s IH]; simpl; [reflexivity|].
  now rewrite IH.
Qed.

Lemma ends_space_app (a b : string) :
  is_empty b = false -> ends_space (a ++ b) = ends_space b.
Proof.
  intros Hb. induction a as [|c a IH]; simpl; [reflexivity|].
  destruct (a ++ b) eqn:E.
  - destruct a; destruct b; simpl in *; congruence.
  - exact IH.
Qed.

Lemma ends_space_lstrip (s : string) :
  ends_space s = false -> ends_space (lstrip s) = false.
Proof.
  induction s as [|c s IH]; simpl; [reflexivity|].
  destruct s as [|y r].
  - intros H. rewrite H. simpl. exact H.
  - intros H. destruct (isspace c); [apply IH; exact H|exact H].
Qed.

Lemma strip_starts (s : string) : starts_space (strip s) = false.
Proof. apply lstrip_starts. Qed.

Lemma strip_ends (s : string) : ends_space (strip s) = false.
Proof. apply ends_space_lstrip, rstrip_ends. Qed.

Lemma strip_id (s : string) :
  starts_space s = false -> ends_space s = false -> strip s = s.
Proof.
  intros H1 H2. unfold strip. rewrite (rstrip_id _ H2). now apply lstrip_id.
Qed.

Lemma strip_nl (s : string) : strip (s ++ nl) = strip s.
Proof. unfold strip. now rewrite rstrip_nl. Qed.

Lemma split_tab_app (k v : string) :
  mem_char TAB k = false -> split_tab (k ++ tab ++ v) = (k, Some v).
Proof.
  change (tab ++ v) with (String TAB v).
  induction k as [|c k IH]; simpl; [reflexivity|].
  intros H. apply orb_false_iff in H. destruct H as [H1 H2].
  rewrite H1, (IH H2). reflexivity.
Qed.

Lemma split_tab_inv (s k v : string) :
  split_tab s = (k, Some v) -> s = k ++ tab ++ v /\ mem_char TAB k = false.
Proof.
  change (tab ++ v) with (String TAB v).
  revert k. induction s as [|c s IH]; simpl; intros k H; [congruence|].
  destruct (Ascii.eqb c TAB) eqn:E.
  - inversion H; subst. apply Ascii.eqb_eq in E. subst. split; reflexivity.
  - destruct (split_tab s) as [a b] eqn:S. inversion H; subst.
    destruct (IH a eq_refl) as [-> Hm]. split; [reflexivity|].
    simpl. now rewrite E, Hm.
Qed.

Lemma no_break_iff (s : string) :
  no_break s = true <-> mem_char LF s = false /\ mem_char CR s = false.
Proof.
  unfold no_break. rewrite andb_true_iff, !negb_true_iff. tauto.
Qed.

Lemma no_break_app (a b : string) :
  no_break (a ++ b) = no_break a && no_break b.
Proof.
  unfold no_break. rewrite !mem_char_app, !negb_orb.
  destruct (mem_char LF a), (mem_char CR a), (mem_char LF b); reflexivity.
Qed.

Lemma no_break_sub (s t : string) :
  (forall c, mem_char c t = true -> mem_char c s = true) ->
  no_break s = true -> no_break t = true.
Proof.
  intros Hsub H. apply no_break_iff in H. destruct H as [H1 H2].
  apply no_break_iff. split.
  - destruct (mem_char LF t) eqn:E; [|reflexivity].
    apply Hsub in E. congruence.
  - destruct (mem_char CR t) eqn:E; [|reflexivity].
    apply Hsub in E. congruence.
Qed.

Lemma starts_space_app (a b : string) :
  is_empty a = false -> starts_space (a ++ b) = starts_space a.
Proof. destruct a; simpl; [congruence|reflexivity]. Qed.

(** ** One line of the file *)

Lemma clean_key_inv (k : string) :
  clean_key k = true ->
  is_empty k = false /\ mem_char TAB k = false /\ no_break k = true
  /\ starts_space k = false.
Proof.
  unfold clean_key. rewrite !andb_true_iff, !negb_true_iff. tauto.
Qed.

Lemma clean_value_inv (v : string) :
  clean_value v = true ->
  is_empty v = false /\ no_break v = true /\ ends_space v = false.
Proof.
  unfold clean_value. rewrite !andb_true_iff, !negb_true_iff. tauto.
Qed.

Lemma entry_line_body (kv : string * string) :
  entry_line kv = (fst kv ++ tab ++ snd kv) ++ nl.
Proof. unfold entry_line. now rewrite !append_assoc. Qed.

Lemma parse_entry_line (kv : string * string) :
  clean_entry kv = true -> parse_line (entry_line kv) = Some kv.
Proof.
  destruct kv as [k v]. unfold clean_entry. simpl fst. simpl snd.
  intros H. apply andb_true_iff in H. destruct H as [Hk Hv].
  apply clean_key_inv in Hk. destruct Hk as (Hk1 & Hk2 & Hk3 & Hk4).
  apply clean_value_inv in Hv. destruct Hv as (Hv1 & Hv2 & Hv3).
  unfold parse_line. rewrite entry_line_body, strip_nl. simpl fst. simpl snd.
  rewrite strip_id.
  - rewrite split_tab_app by exact Hk2.
    destruct k; simpl in *; [congruence|reflexivity].
  - now rewrite starts_space_app.
  - rewrite ends_space_app.
    + change (tab ++ v) with (String TAB v). destruct v; simpl in *; congruence.
    + reflexivity.
Qed.

Lemma line_ok_rstrip (l : string) :
  line_ok l = true -> no_break (rstrip l) = true.
Proof.
  induction l as [|c l IH]; [reflexivity|].
  destruct l as [|d l].
  - simpl. intros H. apply negb_true_iff in H.
    destruct (isspace c) eqn:S; [reflexivity|].
    unfold no_break. simpl. rewrite H, (not_space_neq c LF S isspace_LF).
    reflexivity.
  - intros H. change (line_ok (String c (String d l)))
      with (negb (Ascii.eqb c LF) && negb (Ascii.eqb c CR)
            && line_ok (String d l)) in H.
    rewrite !andb_true_iff, !negb_true_iff in H.
    destruct H as [[H1 H2] H3]. specialize (IH H3).
    change (rstrip (String c (String d l)))
      with (if is_empty (rstrip (String d l)) && isspace c
            then EmptyString else String c (rstrip (String d l))).
    destruct (is_empty (rstrip (String d l)) && isspace c); [reflexivity|].
    apply no_break_iff in IH. destruct IH as [I1 I2].
    apply no_break_iff. split.
    + change (Ascii.eqb c LF || mem_char LF (rstrip (String d l)) = false).
      now rewrite H1, I1.
    + change (Ascii.eqb c CR || mem_char CR (rstrip (String d l)) = false).
      now rewrite H2, I2.
Qed.

Lemma line_ok_strip (l : string) :
  line_ok l = true -> no_break (strip l) = true.
Proof.
  intros H. apply (no_break_sub (rstrip l)).
  - intros c. apply lstrip_mem.
  - now apply line_ok_rstrip.
Qed.

Lemma parse_line_clean (l : string) (kv : string * string) :
  line_ok l = true -> parse_line l = Some kv -> clean_entry kv = true.
Proof.
  intros Hl. unfold parse_line.
  pose proof (strip_starts l) as Hs. pose proof (strip_ends l) as He.
  pose proof (line_ok_strip l Hl) as Hb.
  destruct (strip l) as [|c s] eqn:E; simpl is_empty; cbv iota; [congruence|].
  destruct (split_tab (String c s)) as [k [v|]] eqn:S; [|congruence].
  intros H. inversion H; subst kv. clear H.
  apply split_tab_inv in S. destruct S as [S Hk].
  rewrite S in Hs, He, Hb.
  rewrite !no_break_app in Hb. rewrite !andb_true_iff in Hb.
  destruct Hb as (Hbk & _ & Hbv).
  unfold clean_entry, clean_key, clean_value. simpl fst. simpl snd.
  rewrite Hk, Hbk, Hbv.
  destruct k as [|x k].
  - simpl in Hs. rewrite isspace_TAB in Hs. discriminate.
  - simpl in Hs. simpl starts_space. rewrite Hs.
    rewrite ends_space_app in He by reflexivity.
    change (tab ++ v) with (String TAB v) in He.
    destruct v as [|y v].
    + simpl in He. rewrite isspace_TAB in He. discriminate.
    + change (ends_space (String TAB (String y v)))
        with (ends_space (String y v)) in He. rewrite He. reflexivity.
Qed.

(** ** The lines of a file *)

Lemma readlines_line (body rest : string) :
  no_break body = true ->
  readlines (body ++ nl ++ rest) = (body ++ nl) :: readlines rest.
Proof.
  change (nl ++ rest) with (String LF rest).
  induction body as [|c body IH]; intros H.
  - reflexivity.
  - apply no_break_iff in H. simpl in H. destruct H as [H1 H2].
    apply orb_false_iff in H1. apply orb_false_iff in H2.
    destruct H1 as [H1 H1']. destruct H2 as [H2 H2'].
    assert (Hb : no_break body = true) by now apply no_break_iff.
    simpl. rewrite H1, H2, (IH Hb). reflexivity.
Qed.

Lemma readlines_ok_n (n : nat) (s : string) :
  String.length s <= n -> forallb line_ok (readlines s) = true.
Proof.
  revert s. induction n as [|n IH]; intros s Hn.
  - destruct s; simpl in *; [reflexivity|lia].
  - destruct s as [|c s]; [reflexivity|]. simpl in Hn.
    assert (Hs : forallb line_ok (readlines s) = true) by (apply IH; lia).
    simpl. destruct (Ascii.eqb c LF) eqn:E1.
    + simpl. exact Hs.
    + destruct (Ascii.eqb c CR) eqn:E2.
      * destruct s as [|d s]; [reflexivity|].
        destruct (Ascii.eqb d LF); simpl; [|exact Hs].
        apply IH. simpl in Hn. lia.
      * destruct (readlines s) as [|l ls]; simpl.
        -- now rewrite E2.
        -- simpl in Hs. apply andb_true_iff in Hs. destruct Hs as [Hl Hls].
           rewrite Hls, andb_true_r.
           destruct l; [now rewrite E2|]. now rewrite E1, E2, Hl.
Qed.

Lemma readlines_ok (s : string) : forallb line_ok (readlines s) = true.
Proof. apply (readlines_ok_n (String.length s)). lia. Qed.

(** ** Lemmas on the dictionary *)

Lemma existsb_eqb_In (k : string) (l : list string) :
  existsb (String.eqb k) l = true <-> In k l.
Proof.
  rewrite existsb_exists. split.
  - intros [x [Hx E]]. apply String.eqb_eq in E. now subst.
  - intros H. exists k. split; [exact H|apply String.eqb_refl].
Qed.

Lemma uniq_NoDup (l : list string) : uniq l = true <-> NoDup l.
Proof.
  induction l as [|k l IH]; simpl.
  - split; [constructor|reflexivity].
  - rewrite andb_true_iff, negb_true_iff, IH. split.
    + intros [H1 H2]. constructor; [|exact H2].
      intros Hin. apply existsb_eqb_In in Hin. congruence.
    + intros H. inversion H; subst. split; [|assumption].
      destruct (existsb (String.eqb k) l) eqn:E; [|reflexivity].
      apply existsb_eqb_In in E. contradiction.
Qed.

Lemma dict_get_None (d : dict) (k : string) :
  dict_get d k = None <-> ~ In k (keys d).
Proof.
  induction d as [|[k' v'] d IH]; simpl.
  - tauto.
  - destruct (String.eqb k' k) eqn:E.
    + apply String.eqb_eq in E. split; [congruence|]. intros H. tauto.
    + apply String.eqb_neq in E. rewrite IH. tauto.
Qed.

Lemma dict_mem_true (d : dict) (k : string) :
  dict_mem d k = true <-> In k (keys d).
Proof.
  unfold dict_mem. pose proof (dict_get_None d k) as H.
  destruct (dict_get d k).
  - split; [|reflexivity]. intros _.
    destruct (in_dec string_dec k (keys d)) as [I|I]; [exact I|].
    apply H in I. discriminate.
  - split; [discriminate|]. intros I. exfalso. now apply H.
Qed.

Lemma dict_set_fresh (d : dict) (k v : string) :
  ~ In k (keys d) -> dict_set d k v = (d ++ [(k, v)])%list.
Proof.
  induction d as [|[k' v'] d IH]; simpl; [reflexivity|].
  intros H. destruct (String.eqb k' k) eqn:E.
  - apply String.eqb_eq in E. tauto.
  - rewrite IH by tauto. reflexivity.
Qed.

Lemma dict_get_set_same (d : dict) (k v : string) :
  dict_get (dict_set d k v) k = Some v.
Proof.
  induction d as [|[k' v'] d IH]; simpl.
  - now rewrite String.eqb_refl.
  - destruct (String.eqb k' k) eqn:E; simpl; now rewrite E.
Qed.

Lemma dict_get_set_other (d : dict) (k v k0 : string) :
  k0 <> k -> dict_get (dict_set d k v) k0 = dict_get d k0.
Proof.
  intros Hne. induction d as [|[k' v'] d IH]; simpl.
  - destruct (String.eqb k k0) eqn:E; [|reflexivity].
    apply String.eqb_eq in E. congruence.
  - destruct (String.eqb k' k) eqn:E; simpl.
    + apply String.eqb_eq in E. subst k'.
      destruct (String.eqb k k0) eqn:E2; [|reflexivity].
      apply String.eqb_eq in E2. congruence.
    + now rewrite IH.
Qed.

Lemma keys_dict_set (d : dict) (k v : string) :
  keys (dict_set d k v) =
  if dict_mem d k then keys d else (keys d ++ [k])%list.
Proof.
  unfold dict_mem. induction d as [|[k' v'] d IH]; simpl; [reflexivity|].
  destruct (String.eqb k' k) eqn:E; simpl; [reflexivity|].
  rewrite IH. now destruct (dict_get d k).
Qed.

Lemma NoDup_dict_set (d : dict) (k v : string) :
  NoDup (keys d) -> NoDup (keys (dict_set d k v)).
Proof.
  intros H. rewrite keys_dict_set. destruct (dict_mem d k) eqn:E; [exact H|].
  apply NoDup_app; [exact H|repeat constructor; simpl; tauto|].
  intros x Hx [Hk|[]]. subst x. apply dict_mem_true in Hx. congruence.
Qed.

Lemma keys_dict_del_incl (d : dict) (k x : string) :
  In x (keys (dict_del d k)) -> In x (keys d).
Proof.
  induction d as [|[k' v'] d IH]; simpl; [tauto|].
  destruct (String.eqb k' k); simpl; tauto.
Qed.

Lemma NoDup_dict_del (d : dict) (k : string) :
  NoDup (keys d) -> NoDup (keys (dict_del d k)).
Proof.
  induction d as [|[k' v'] d IH]; simpl; [constructor|].
  intros H. inversion H; subst.
  destruct (String.eqb k' k); simpl; [assumption|].
  constructor; [|now apply IH].
  intros Hin. apply keys_dict_del_incl in Hin. contradiction.
Qed.

Lemma dict_del_absent (d : dict) (k : string) :
  NoDup (keys d) -> ~ In k (keys (dict_del d k)).
Proof.
  induction d as [|[k' v'] d IH]; simpl; [tauto|].
  intros H. inversion H; subst.
  destruct (String.eqb k' k) eqn:E; simpl.
  - apply String.eqb_eq in E. now subst.
  - apply String.eqb_neq in E. intros [Hk|Hk]; [contradiction|].
    now apply IH in Hk.
Qed.

Lemma clean_dict_set (d : dict) (k v : string) :
  clean_store d = true -> clean_entry (k, v) = true ->
  clean_store (dict_set d k v) = true.
Proof.
  unfold clean_store. intros Hd Hkv.
  induction d as [|[k' v'] d IH]; simpl in *.
  - now rewrite Hkv.
  - apply andb_true_iff in Hd. destruct Hd as [H1 H2].
    destruct (String.eqb k' k) eqn:E; simpl.
    + apply String.eqb_eq in E. subst k'. now rewrite Hkv, H2.
    + now rewrite H1, IH.
Qed.

Lemma clean_dict_del (d : dict) (k : string) :
  clean_store d = true -> clean_store (dict_del d k) = true.
Proof.
  unfold clean_store. induction d as [|[k' v'] d IH]; simpl; [reflexivity|].
  intros H. apply andb_true_iff in H. destruct H as [H1 H2].
  destruct (String.eqb k' k); simpl; [exact H2|]. now rewrite H1, IH.
Qed.

(** ** [save] then [load] *)

Lemma render_cons (kv : string * string) (st : dict) :
  render (kv :: st) = (fst kv ++ tab ++ snd kv) ++ nl ++ render st.
Proof. simpl. now rewrite entry_line_body, append_assoc. Qed.

Lemma clean_entry_no_break (kv : string * string) :
  clean_entry kv = true -> no_break (fst kv ++ tab ++ snd kv) = true.
Proof.
  unfold clean_entry. intros H. apply andb_true_iff in H. destruct H as [Hk Hv].
  apply clean_key_inv in Hk. apply clean_value_inv in Hv.
  rewrite !no_break_app.
  destruct Hk as (_ & _ & -> & _). destruct Hv as (_ & -> & _). reflexivity.
Qed.

Lemma readlines_render (st : dict) :
  clean_store st = true -> readlines (render st) = map entry_line st.
Proof.
  unfold clean_store. induction st as [|kv st IH]; [reflexivity|].
  intros H. simpl forallb in H. apply andb_true_iff in H. destruct H as [H1 H2].
  rewrite render_cons, readlines_line by now apply clean_entry_no_break.
  rewrite IH by exact H2. simpl. now rewrite entry_line_body.
Qed.

Lemma parsed_lines_render (st : dict) :
  clean_store st = true -> parsed_lines (render st) = st.
Proof.
  intros H. unfold parsed_lines. rewrite readlines_render by exact H.
  unfold clean_store in H. induction st as [|kv st IH]; [reflexivity|].
  simpl in H. apply andb_true_iff in H. destruct H as [H1 H2].
  simpl. rewrite parse_entry_line by exact H1. simpl. now rewrite IH.
Qed.

Lemma load_entries (st acc : dict) :
  clean_store st = true -> NoDup (keys (acc ++ st)%list) ->
  fold_left load_line (map entry_line st) acc = (acc ++ st)%list.
Proof.
  unfold clean_store. revert acc.
  induction st as [|[k v] st IH]; intros acc H Hn; simpl.
  - now rewrite app_nil_r.
  - simpl in H. apply andb_true_iff in H. destruct H as [H1 H2].
    unfold load_line at 2. rewrite parse_entry_line by exact H1.
    assert (Hk : ~ In k (keys acc)).
    { unfold keys in Hn. rewrite map_app in Hn. simpl in Hn.
      apply NoDup_remove_2 in Hn. intros Hin. apply Hn.
      apply in_or_app. now left. }
    rewrite dict_set_fresh by exact Hk.
    rewrite IH; [|exact H2|].
    + now rewrite <- app_assoc.
    + now rewrite <- app_assoc.
Qed.

Lemma load_render (st : dict) :
  clean_store st = true -> NoDup (keys st) ->
  fold_left load_line (readlines (render st)) [] = st.
Proof.
  intros H Hn. rewrite readlines_render by exact H.
  now apply (load_entries st []).
Qed.

(** What [load] builds is clean and has pairwise different keys. *)
Lemma load_lines_clean (lines : list string) (acc : dict) :
  forallb line_ok lines = true -> clean_store acc = true ->
  clean_store (fold_left load_line lines acc) = true.
Proof.
  revert acc. induction lines as [|l lines IH]; intros acc Hl Ha; simpl.
  - exact Ha.
  - simpl in Hl. apply andb_true_iff in Hl. destruct Hl as [H1 H2].
    apply IH; [exact H2|]. unfold load_line.
    destruct (parse_line l) as [[k v]|] eqn:P; [|exact Ha].
    apply clean_dict_set; [exact Ha|]. now apply (parse_line_clean l).
Qed.

Lemma load_lines_NoDup (lines : list string) (acc : dict) :
  NoDup (keys acc) -> NoDup (keys (fold_left load_line lines acc)).
Proof.
  revert acc. induction lines as [|l lines IH]; intros acc Ha; simpl.
  - exact Ha.
  - apply IH. unfold load_line.
    destruct (parse_line l) as [[k v]|]; [|exact Ha].
    now apply NoDup_dict_set.
Qed.


(** ** The store operations *)

Lemma get_after_set (k v : string) (st : dict) :
  get k (dict_set st k v) = v.
Proof. unfold get. now rewrite dict_get_set_same. Qed.

Lemma save_file_ok (st : dict) (e : Env) :
  wfail e = None -> file (save st e) = Some (render st).
Proof. unfold save. simpl. now intros ->. Qed.

Lemma save_keeps_rfail (st : dict) (e : Env) : rfail (save st e) = rfail e.
Proof.
  unfold save. simpl. destruct (wfail e); [|reflexivity].
  now destruct (wtorn e).
Qed.

Lemma save_attempted (st : dict) (e : Env) : attempted_write e (save st e).
Proof.
  unfold attempted_write, save. simpl. destruct (wfail e) as [msg|]; simpl.
  - exists [OpenWrite; Print ("[ERROR] Error saving data: " ++ msg)].
    split; [|simpl; tauto].
    destruct (wtorn e); simpl; now rewrite <- app_assoc.
  - exists [OpenWrite]. split; [reflexivity|simpl; tauto].
Qed.

Lemma fresh_load_file (e : Env) (content : string) :
  file e = Some content -> rfail e = None ->
  fresh_load e = fold_left load_line (readlines content) [].
Proof.
  unfold fresh_load, init, load. intros -> H. simpl. now rewrite H.
Qed.

Lemma forallb_firstn {A : Type} (f : A -> bool) (n : nat) (l : list A) :
  forallb f l = true -> forallb f (firstn n l) = true.
Proof.
  revert n. induction l as [|a l IH]; intros [|n] H; try reflexivity.
  simpl in *. apply andb_true_iff in H. destruct H as [H1 H2].
  now rewrite H1, IH.
Qed.

Lemma fresh_load_clean (e : Env) : clean_store (fresh_load e) = true.
Proof.
  unfold fresh_load, init, load. destruct (file e) as [c|]; [|reflexivity].
  simpl. destruct (rfail e); simpl.
  - destruct (rtorn e) as [n|]; [|reflexivity].
    apply load_lines_clean; [|reflexivity].
    apply forallb_firstn, readlines_ok.
  - apply load_lines_clean; [apply readlines_ok|reflexivity].
Qed.

Lemma fresh_load_NoDup (e : Env) : NoDup (keys (fresh_load e)).
Proof.
  unfold fresh_load, init, load. destruct (file e) as [c|]; [|constructor].
  simpl. destruct (rfail e); simpl.
  - destruct (rtorn e) as [n|]; [|constructor].
    apply load_lines_NoDup. constructor.
  - apply load_lines_NoDup. constructor.
Qed.

Lemma trace_save (st : dict) (e : Env) :
  trace (save st e) =
  (trace e ++ OpenWrite ::
     match wfail e with
     | Some msg => [Print ("[ERROR] Error saving data: " ++ msg)]
     | None => []
     end)%list.
Proof.
  unfold save, emit. cbn [wfail wtorn]. destruct (wfail e) as [msg|].
  - destruct (wtorn e); unfold print, emit, write_file; cbn [trace];
      now rewrite <- app_assoc.
  - reflexivity.
Qed.

Lemma set_attempted (k v : string) (st : dict) (e : Env) :
  attempted_write e (snd (set k v st e)).
Proof.
  unfold attempted_write, set. cbn [snd].
  unfold print at 1. unfold emit at 1. cbn [trace]. rewrite trace_save.
  unfold print, emit. cbn [trace wfail].
  eexists. split; [rewrite <- !app_assoc; reflexivity|].
  simpl. tauto.
Qed.

Lemma lines_for_store (st : dict) (k v : string) :
  NoDup (keys st) -> dict_get st k = Some v ->
  filter (fun kv => String.eqb (fst kv) k) st = [(k, v)].
Proof.
  induction st as [|[k' v'] st IH]; simpl; [congruence|].
  intros Hn. inversion Hn as [|x l Hnotin Hrest]; subst.
  destruct (String.eqb k' k) eqn:E.
  - apply String.eqb_eq in E. subst k'. intros H. inversion H; subst.
    f_equal. clear IH Hn Hrest H.
    induction st as [|[a b] st IH]; [reflexivity|].
    simpl in *. destruct (String.eqb a k) eqn:E.
    + apply String.eqb_eq in E. tauto.
    + apply IH. tauto.
  - now apply IH.
Qed.

(** C1 (as amended): for all keys [k] and values [v], after [set(k, v)]
    returns, [get(k)] returns [v]; and when the file could be opened for
    writing, it has exactly one line for [k], carrying [v] (the store being
    one of the running program and [k], [v] text that the file format
    carries, as all whitespace-free tokens are). *)
Theorem set_then_get_and_one_line (k v : string) (st : dict) (e : Env) :
  let '(_, st', e') := set k v st e in
  get k st' = v
  /\ (store_ok st -> clean_entry (k, v) = true -> wfail e = None ->
      one_line_for k v e').
Proof.
  unfold set. split; [apply get_after_set|].
  intros [Hu Hc] Hkv Hw. exists (render (dict_set st k v)). split.
  - unfold print, emit. simpl. unfold save. simpl. now rewrite Hw.
  - unfold lines_for. rewrite parsed_lines_render by now apply clean_dict_set.
    apply lines_for_store.
    + apply NoDup_dict_set. now apply uniq_NoDup.
    + apply dict_get_set_same.
Qed.

Lemma set_then_get_and_one_line_witness :
  get "a" [("b", "2"); ("a", "1")] = "1" /\
  one_line_for "a" "1" (snd (set "a" "1" [("b", "2")] env0)).
Proof.
  pose proof (set_then_get_and_one_line "a" "1" [("b", "2")] env0) as [H1 H2].
  split; [exact H1|].
  apply H2; [split; reflexivity|reflexivity|reflexivity].
Defined.

(** C1, as stated, fails when the file cannot be opened for writing:
    [set] returns its confirmation, [get] returns the value, and the file
    has no line for the key. *)
Lemma set_one_line_counterexample :
  let '(r, st', e') := set "a" "1" [] (mkEnv None (Some "denied") None []) in
  r = "Added key 'a' with value '1'" ++ nl
  /\ get "a" st' = "1"
  /\ file e' = None
  /\ ~ one_line_for "a" "1" e'.
Proof.
  simpl. repeat split. intros [c [H _]]. discriminate.
Qed.

(** C2 (as amended): a mutating operation ([set], or [remove] of a
    present key) opens the file for writing before it returns; and when
    that succeeds, the file holds what [save] writes for the in-memory
    mapping at the moment the operation returns. *)
Theorem mutation_persisted (k v : string) (st : dict) (e : Env) :
  (let '(_, st', e') := set k v st e in
   attempted_write e e' /\ (wfail e = None -> agrees st' e'))
  /\
  (dict_mem st k = true ->
   let '(_, st', e') := remove k st e in
   attempted_write e e' /\ (wfail e = None -> agrees st' e')).
Proof.
  split.
  - split.
    + exact (set_attempted k v st e).
    + unfold set, agrees. intros Hw. unfold print, emit, save. simpl.
      now rewrite Hw.
  - intros Hm. unfold remove. rewrite Hm. split.
    + apply save_attempted.
    + intros Hw. now apply save_file_ok.
Qed.

Lemma mutation_persisted_witness :
  agrees [("a", "1")] (snd (set "a" "1" [] env0))
  /\ agrees [] (snd (remove "a" [("a", "1")] env0)).
Proof.
  pose proof (mutation_persisted "a" "1" [] env0) as [[_ H1] _].
  pose proof (mutation_persisted "a" "1" [("a", "1")] env0) as [_ H2].
  split; [apply H1; reflexivity|apply H2; reflexivity].
Defined.

(** C2, as stated, fails when the file cannot be opened for writing:
    [set] returns its confirmation and the mapping has the entry, while
    the file still holds what it held. *)
Lemma mutation_persisted_counterexample :
  let e := mkEnv (Some ("b" ++ tab ++ "2" ++ nl)) (Some "denied") None [] in
  let '(r, st', e') := set "a" "1" [("b", "2")] e in
  r = "Added key 'a' with value '1'" ++ nl
  /\ st' = [("b", "2"); ("a", "1")]
  /\ file e' = Some ("b" ++ tab ++ "2" ++ nl)
  /\ ~ agrees st' e'.
Proof.
  simpl. repeat split. unfold agrees. simpl. discriminate.
Qed.

(** Saving a store of the running program and loading the file into a
    fresh store gives the same mapping, entries and order. *)
Lemma roundtrip_ok (st : dict) (e : Env) :
  store_ok st -> wfail e = None -> rfail e = None ->
  fresh_load (save st e) = st.
Proof.
  intros [Hu Hc] Hw Hr.
  rewrite (fresh_load_file _ (render st)).
  - apply load_render; [exact Hc|now apply uniq_NoDup].
  - now apply save_file_ok.
  - now rewrite save_keeps_rfail.
Qed.

(** C3: for every mapping of entries with pairwise different keys (an
    entry being a key and a value that the file format carries, as all
    whitespace-free tokens are), saving it to the file and building a fresh
    store that loads the file gives the same mapping back: the same
    entries, and in the same order. *)
Theorem save_load_roundtrip (st : dict) (e : Env) :
  store_ok st ->
  wfail e = None ->
  rfail e = None ->
  roundtrips st e
  /\ Permutation (fresh_load (save st e)) st
  /\ forall k, dict_get (fresh_load (save st e)) k = dict_get st k.
Proof.
  intros Hs Hw Hr. unfold roundtrips.
  rewrite (roundtrip_ok st e Hs Hw Hr). repeat split. apply Permutation_refl.
Qed.

Lemma save_load_roundtrip_witness :
  roundtrips [("a", "1"); ("b", "2"); ("c", "3")] env0.
Proof.
  apply (save_load_roundtrip [("a", "1"); ("b", "2"); ("c", "3")] env0);
    try reflexivity.
  split; reflexivity.
Defined.

Lemma fresh_load_print (line : string) (e : Env) :
  fresh_load (print line e) = fresh_load e.
Proof.
  unfold fresh_load, init, load, print, emit. simpl.
  destruct (file e); [|reflexivity]. now destruct (rfail e).
Qed.

(** Restarting after a [set]: a store built afresh on the file that a
    successful [set] has written holds the mapping of the old store. *)
Lemma restart_after_set (k v : string) (st : dict) (e : Env) :
  store_ok st -> clean_entry (k, v) = true ->
  wfail e = None -> rfail e = None ->
  let '(_, st', e') := set k v st e in fresh_load e' = st'.
Proof.
  intros [Hu Hc] Hkv Hw Hr. unfold set. rewrite fresh_load_print.
  apply roundtrip_ok; [|exact Hw|exact Hr]. split.
  - apply uniq_NoDup, NoDup_dict_set. now apply uniq_NoDup.
  - now apply clean_dict_set.
Qed.

Lemma remove_absent (k : string) (st : dict) (e : Env) :
  dict_mem st k = false -> remove k st e = (not_found k, st, e).
Proof. unfold remove. now intros ->. Qed.

Lemma dict_mem_del (st : dict) (k : string) :
  uniq (keys st) = true -> dict_mem (dict_del st k) k = false.
Proof.
  intros Hu. apply uniq_NoDup in Hu.
  destruct (dict_mem (dict_del st k) k) eqn:E; [|reflexivity].
  apply dict_mem_true in E. now apply dict_del_absent in E.
Qed.

Lemma NoDup_keys_firstn (n : nat) (st : dict) :
  NoDup (keys st) -> NoDup (keys (firstn n st)).
Proof.
  intros H. rewrite <- (firstn_skipn n st) in H.
  unfold keys in *. rewrite map_app in H. now apply NoDup_app_remove_r in H.
Qed.

Lemma keys_firstn_In (n : nat) (st : dict) (k : string) :
  In k (keys (firstn n st)) -> In k (keys st).
Proof.
  intros H. rewrite <- (firstn_skipn n st). unfold keys in *.
  rewrite map_app. apply in_or_app. now left.
Qed.

(** Reading only the first [n] lines of a file that [save] wrote gives the
    first [n] entries of the mapping. *)
Lemma load_firstn (n : nat) (st : dict) :
  store_ok st ->
  fold_left load_line (firstn n (readlines (render st))) [] = firstn n st.
Proof.
  intros [Hu Hc]. rewrite readlines_render by exact Hc.
  rewrite firstn_map. apply (load_entries (firstn n st) []); simpl.
  - now apply forallb_firstn.
  - apply NoDup_keys_firstn. now apply uniq_NoDup.
Qed.

Lemma save_keeps_rtorn (st : dict) (e : Env) : rtorn (save st e) = rtorn e.
Proof.
  unfold save, emit. cbn [wfail wtorn]. destruct (wfail e); [|reflexivity].
  now destruct (wtorn e).
Qed.

Lemma fresh_load_eq (e : Env) :
  fresh_load e =
  match file e, rfail e, rtorn e with
  | None, _, _ => []
  | Some content, None, _ => fold_left load_line (readlines content) []
  | Some content, Some _, Some n =>
      fold_left load_line (firstn n (readlines content)) []
  | Some content, Some _, None => []
  end.
Proof.
  unfold fresh_load, init, load, emit. destruct (file e); [|reflexivity].
  cbn [rfail rtorn]. destruct (rfail e); [|reflexivity].
  now destruct (rtorn e).
Qed.

Lemma fresh_load_saved (st : dict) (e : Env) (k : string) :
  store_ok st -> wfail e = None ->
  dict_mem st k = false -> dict_mem (fresh_load (save st e)) k = false.
Proof.
  intros Hs Hw Hk. destruct (rfail e) as [msg|] eqn:Hr.
  - rewrite fresh_load_eq, (save_file_ok _ _ Hw).
    rewrite save_keeps_rfail, Hr, save_keeps_rtorn.
    destruct (rtorn e) as [n|]; [|reflexivity].
    rewrite load_firstn by exact Hs.
    destruct (dict_mem (firstn n st) k) eqn:E; [|reflexivity].
    apply dict_mem_true, keys_firstn_In, dict_mem_true in E. congruence.
  - now rewrite roundtrip_ok.
Qed.

Lemma store_ok_del (st : dict) (k : string) :
  store_ok st -> store_ok (dict_del st k).
Proof.
  intros [Hu Hc]. split.
  - apply uniq_NoDup, NoDup_dict_del. now apply uniq_NoDup.
  - now apply clean_dict_del.
Qed.

(** C4 (as amended): [remove(k)] of an absent key returns the not-found
    text and changes neither the mapping nor anything outside it, the file
    included; [remove(k)] of a present key deletes the entry and opens the
    file for writing before it returns, and when that succeeds the file
    holds the new mapping and a fresh load of it has no key [k]. *)
Theorem remove_absent_present (k : string) (st : dict) (e : Env) :
  (dict_mem st k = false -> remove k st e = (not_found k, st, e))
  /\
  (dict_mem st k = true -> store_ok st ->
   let '(r, st', e') := remove k st e in
   r = "Removed key '" ++ k ++ "'." ++ nl
   /\ st' = dict_del st k
   /\ dict_mem st' k = false
   /\ attempted_write e e'
   /\ (wfail e = None ->
       agrees st' e' /\ dict_mem (fresh_load e') k = false)).
Proof.
  split; [apply remove_absent|].
  intros Hm Hs. unfold remove. rewrite Hm.
  assert (Hd : dict_mem (dict_del st k) k = false)
    by (apply dict_mem_del; apply Hs).
  repeat split.
  - exact Hd.
  - apply save_attempted.
  - now apply save_file_ok.
  - apply fresh_load_saved; try assumption. now apply store_ok_del.
Qed.

Lemma remove_absent_present_witness :
  remove "b" [("a", "1")] env0 = (not_found "b", [("a", "1")], env0)
  /\ dict_mem (fresh_load (snd (remove "a" [("a", "1"); ("b", "2")] env0)))
       "a" = false.
Proof.
  split.
  - apply (remove_absent_present "b" [("a", "1")] env0). reflexivity.
  - destruct (remove_absent_present "a" [("a", "1"); ("b", "2")] env0)
      as [_ H].
    apply (H eq_refl); [split; reflexivity|reflexivity].
Defined.

(** C4, as stated, fails when the file cannot be opened for writing:
    [remove] of a present key returns its confirmation, the file still
    holds the old line and a fresh load of it has the key. *)
Lemma remove_present_counterexample :
  let st := [("a", "1")] in
  let e := mkEnv (Some ("a" ++ tab ++ "1" ++ nl)) (Some "denied") None [] in
  let '(r, st', e') := remove "a" st e in
  dict_mem st "a" = true
  /\ r = "Removed key 'a'." ++ nl
  /\ ~ agrees st' e'
  /\ dict_mem (fresh_load e') "a" = true.
Proof.
  cbv zeta. repeat split. unfold agrees. simpl. discriminate.
Qed.

(** ** The command interpreter *)

Lemma cp_eqb_true (a b : list N) : a = b -> cp_eqb a b = true.
Proof. intros ->. unfold cp_eqb. now destruct (list_eq_dec N.eq_dec b b). Qed.

Lemma split_nonempty (s : string) (t : string) (ts : list string) :
  split s = t :: ts -> is_empty s = false.
Proof. destruct s; simpl; congruence. Qed.

Section Arity.
Variables (command tok0 : string) (args : list string).
Variables (st : dict) (e : Env).
Hypothesis Htokens : split (strip command) = tok0 :: args.

Lemma SET_arity :
  upper tok0 = codepoints "SET" -> length args <> 2 ->
  parse_and_execute command st e =
  ("ERROR: SET command requires 2 arguments: key and value" ++ nl, st, e).
Proof.
  intros Hc Hn. unfold parse_and_execute.
  rewrite (split_nonempty _ _ _ Htokens), Htokens, Hc.
  rewrite cp_eqb_true by reflexivity.
  destruct args as [|a [|b [|c r]]]; simpl in *; try reflexivity. lia.
Qed.

Lemma GET_arity :
  upper tok0 = codepoints "GET" -> length args <> 1 ->
  parse_and_execute command st e =
  ("ERROR: GET command requires 1 argument: key" ++ nl, st, e).
Proof.
  intros Hc Hn. unfold parse_and_execute.
  rewrite (split_nonempty _ _ _ Htokens), Htokens, Hc.
  change (cp_eqb (codepoints "GET") (codepoints "SET")) with false.
  rewrite cp_eqb_true by reflexivity. cbv iota.
  destruct args as [|a [|b r]]; simpl in *; try reflexivity. lia.
Qed.

Lemma REMOVE_arity :
  upper tok0 = codepoints "REMOVE" -> length args <> 1 ->
  parse_and_execute command st e =
  ("ERROR: REMOVE command requires 1 argument: key" ++ nl, st, e).
Proof.
  intros Hc Hn. unfold parse_and_execute.
  rewrite (split_nonempty _ _ _ Htokens), Htokens, Hc.
  change (cp_eqb (codepoints "REMOVE") (codepoints "SET")) with false.
  change (cp_eqb (codepoints "REMOVE") (codepoints "GET")) with false.
  rewrite cp_eqb_true by reflexivity. cbv iota.
  destruct args as [|a [|b r]]; simpl in *; try reflexivity. lia.
Qed.

Lemma PRINT_any_arity :
  upper tok0 = codepoints "PRINT" ->
  parse_and_execute command st e = (print_store st, st, e).
Proof.
  intros Hc. unfold parse_and_execute.
  rewrite (split_nonempty _ _ _ Htokens), Htokens, Hc.
  reflexivity.
Qed.
End Arity.

(** C5, at the input where the code departs from it: a PRINT line with
    three tokens is not refused, the tokens after the verb are dropped and
    the listing is returned. *)
Theorem PRINT_with_arguments (e : Env) :
  parse_and_execute "PRINT extra tokens" [("a", "1")] e =
  ("[KEY]: a" ++ tab ++ "[VALUE]: 1" ++ nl, [("a", "1")], e).
Proof. reflexivity. Qed.

(** C6: when the write inside [set] fails, be it that [open] raises or
    that a write or the closing of the file raises after [open] has emptied
    the file, [set] returns the same confirmation text as ever, the mapping
    holds the new entry and the error is printed.  The file is left as it
    was in the first case, and holds what of the new mapping was written
    before the failure in the second. *)
Theorem set_when_write_fails (k v msg : string) (st : dict) (e : Env) :
  wfail e = Some msg ->
  let '(r, st', e') := set k v st e in
  r = "Added key '" ++ k ++ "' with value '" ++ v ++ "'" ++ nl
  /\ dict_get st' k = Some v
  /\ get k st' = v
  /\ file e' = match wtorn e with
               | None => file e
               | Some n => Some (prefix n (render st'))
               end
  /\ In (Print ("[ERROR] Error saving data: " ++ msg)) (trace e').
Proof.
  intros Hw. unfold set. repeat split.
  - apply dict_get_set_same.
  - apply get_after_set.
  - unfold print, emit, save. cbn [file wfail wtorn]. rewrite Hw.
    now destruct (wtorn e).
  - unfold print at 1. unfold emit at 1. cbn [trace]. rewrite trace_save.
    unfold print, emit. cbn [trace wfail]. rewrite Hw.
    apply in_or_app. left. apply in_or_app. right. simpl. tauto.
Qed.

Lemma set_when_write_fails_witness :
  let '(r, st', e') :=
    set "b" "2" [("a", "1")]
      (mkWorld (Some ("a" ++ tab ++ "0" ++ nl)) (Some "disk full") None []
         (Some 5) None) in
  r = "Added key 'b' with value '2'" ++ nl
  /\ dict_get st' "b" = Some "2"
  /\ get "b" st' = "2"
  /\ file e' = Some ("a" ++ tab ++ "1" ++ nl ++ "b")
  /\ In (Print "[ERROR] Error saving data: disk full") (trace e').
Proof.
  apply (set_when_write_fails "b" "2" "disk full" [("a", "1")]
           (mkWorld (Some ("a" ++ tab ++ "0" ++ nl)) (Some "disk full") None []
              (Some 5) None)).
  reflexivity.
Defined.

(** C7: on an empty store the five commands SET a 1, GET a, REMOVE a,
    GET a, PRINT are answered, in this order, by the confirmation of the
    SET, the value, the confirmation of the REMOVE, the not-found text and
    the empty-store text, whatever the file system does. *)
Theorem scenario_set_get_remove (e : Env) :
  fst (fst (session ["SET a 1"; "GET a"; "REMOVE a"; "GET a"; "PRINT"] [] e))
  = ["Added key 'a' with value '1'" ++ nl;
     "1";
     "Removed key 'a'." ++ nl;
     "Key 'a' not found.";
     "Store is empty." ++ nl].
Proof. reflexivity. Qed.

(** C9 (as amended): [save] followed by a fresh [load] gives an entry back
    as it was exactly when the key is not empty, has no tab, no LF and no
    CR and does not start with whitespace, and the value is not empty, has
    no LF and no CR and does not end with whitespace. *)
Theorem entry_roundtrip_iff_clean (k v : string) (e : Env) :
  wfail e = None ->
  rfail e = None ->
  (roundtrips [(k, v)] e <-> clean_entry (k, v) = true).
Proof.
  intros Hw Hr. unfold roundtrips. split.
  - intros H. pose proof (fresh_load_clean (save [(k, v)] e)) as Hc.
    rewrite H in Hc. simpl in Hc. now rewrite andb_true_r in Hc.
  - intros H. apply roundtrip_ok; try assumption.
    split; [reflexivity|]. simpl. now rewrite H.
Qed.

Lemma entry_roundtrip_iff_clean_witness :
  roundtrips [("k", "a" ++ tab ++ "b")] env0
  <-> clean_entry ("k", "a" ++ tab ++ "b") = true.
Proof.
  apply (entry_roundtrip_iff_clean "k" ("a" ++ tab ++ "b") env0); reflexivity.
Defined.

(** C9, as stated, fails: a value that ends with a tab has a key without
    tab and no newline anywhere, and comes back without its last tab. *)
Lemma entry_roundtrip_counterexample :
  no_tab_no_newline "k" ("v" ++ tab) = true
  /\ fresh_load (save [("k", "v" ++ tab)] env0) = [("k", "v")]
  /\ ~ roundtrips [("k", "v" ++ tab)] env0.
Proof.
  repeat split. unfold roundtrips. vm_compute. discriminate.
Qed.

(** The same for a whole mapping. *)
Lemma store_roundtrip_iff_clean (st : dict) (e : Env) :
  uniq (keys st) = true -> wfail e = None -> rfail e = None ->
  (roundtrips st e <-> clean_store st = true).
Proof.
  intros Hu Hw Hr. unfold roundtrips. split.
  - intros H. rewrite <- H. apply fresh_load_clean.
  - intros H. apply roundtrip_ok; try assumption. now split.
Qed.

Lemma last_char_app (a b : string) :
  is_empty b = false -> last_char (a ++ b) = last_char b.
Proof.
  intros Hb. induction a as [|c a IH]; simpl; [reflexivity|].
  destruct (a ++ b) eqn:E; [|exact IH].
  destruct a; destruct b; simpl in *; congruence.
Qed.

(** C10: for a key absent from the store, [get] and [remove] return the
    same text, the not-found text of the key, which ends with a full stop
    and not with a newline; and a store in which the key maps to that very
    text answers [get] as a store without the key does. *)
Theorem not_found_indistinguishable (k : string) (st : dict) (e : Env) :
  dict_mem st k = false ->
  get k st = "Key '" ++ k ++ "' not found."
  /\ fst (fst (remove k st e)) = "Key '" ++ k ++ "' not found."
  /\ last_char ("Key '" ++ k ++ "' not found.") = Some "."%char
  /\ forall st', dict_get st' k = Some ("Key '" ++ k ++ "' not found.") ->
                 get k st' = get k st.
Proof.
  intros Hm. assert (Hg : dict_get st k = None).
  { unfold dict_mem in Hm. now destruct (dict_get st k). }
  repeat split.
  - unfold get. now rewrite Hg.
  - unfold remove. now rewrite Hm.
  - rewrite <- append_assoc. now rewrite last_char_app.
  - intros st' H. unfold get. now rewrite H, Hg.
Qed.

Lemma not_found_indistinguishable_witness :
  get "a" [] = "Key 'a' not found."
  /\ fst (fst (remove "a" [] env0)) = "Key 'a' not found."
  /\ last_char "Key 'a' not found." = Some "."%char
  /\ forall st', dict_get st' "a" = Some "Key 'a' not found." ->
                 get "a" st' = get "a" [].
Proof.
  apply (not_found_indistinguishable "a" [] env0). reflexivity.
Defined.

(** ** Concurrent sessions calling [set] on one key *)

Lemma nth_error_upd_same {A : Type} (l : list A) (n : nat) (x y : A) :
  nth_error l n = Some y -> nth_error (upd n x l) n = Some x.
Proof.
  revert n. induction l as [|a l IH]; intros [|n]; simpl; try congruence.
  apply IH.
Qed.

Lemma nth_error_upd_other {A : Type} (l : list A) (n m : nat) (x : A) :
  m <> n -> nth_error (upd n x l) m = nth_error l m.
Proof.
  revert n m. induction l as [|a l IH]; intros [|n] [|m] H; simpl;
    try reflexivity; try congruence.
  apply IH. congruence.
Qed.

Lemma nth_error_upd {A : Type} (l : list A) (n m : nat) (x y z : A) :
  nth_error l n = Some y -> nth_error (upd n x l) m = Some z ->
  (m = n /\ z = x) \/ (m <> n /\ nth_error l m = Some z).
Proof.
  intros Hn Hm. destruct (Nat.eq_dec m n) as [->|Hne].
  - rewrite (nth_error_upd_same _ _ _ _ Hn) in Hm. left. split; congruence.
  - rewrite nth_error_upd_other in Hm by exact Hne. right. now split.
Qed.

Lemma map_fst_upd (l : list thread) (n : nat) (v : string) (p p' : pc) :
  nth_error l n = Some (v, p) -> map fst (upd n (v, p') l) = map fst l.
Proof.
  revert n. induction l as [|a l IH]; intros [|n]; simpl; try congruence.
  - intros H. inversion H; subst. reflexivity.
  - intros H. now rewrite (IH _ H).
Qed.

Lemma render_app (a b : dict) : render (a ++ b)%list = render a ++ render b.
Proof.
  induction a as [|kv a IH]; simpl; [reflexivity|].
  now rewrite IH, append_assoc.
Qed.

Lemma firstn_snoc {A : Type} (l : list A) (i : nat) (x : A) :
  nth_error l i = Some x -> firstn (S i) l = (firstn i l ++ [x])%list.
Proof.
  revert i. induction l as [|a l IH]; intros [|i]; simpl; try congruence.
  intros H. now rewrite <- (IH _ H).
Qed.

Lemma render_firstn_S (st : dict) (i : nat) (kv : string * string) :
  nth_error st i = Some kv ->
  render (firstn (S i) st) = render (firstn i st) ++ entry_line kv.
Proof.
  intros H. rewrite (firstn_snoc _ _ _ H), render_app. simpl.
  now rewrite append_empty_r.
Qed.

Lemma dict_set_length (d : dict) (k v : string) :
  length (dict_set d k v) =
  if dict_mem d k then length d else S (length d).
Proof.
  unfold dict_mem. induction d as [|[k' v'] d IH]; simpl; [reflexivity|].
  destruct (String.eqb k' k); simpl; [reflexivity|].
  rewrite IH. now destruct (dict_get d k).
Qed.

Section Concurrent.
Variable key : string.
Variable values : list string.
Variable st0 : dict.
Variable e0 : Env.

Lemma inv_start : inv key values st0 e0 (start st0 e0 values).
Proof.
  assert (H : forall t v p,
             nth_error (map (fun v => (v, AtLock)) values) t = Some (v, p) ->
             p = AtLock).
  { intros t v p Ht. rewrite nth_error_map in Ht.
    destruct (nth_error values t); simpl in Ht; congruence. }
  constructor; simpl.
  - rewrite map_map. simpl. apply map_id.
  - reflexivity.
  - intros t v p Ht Hp. apply H in Ht. subst. discriminate.
  - discriminate.
  - intros (t & v & p & Ht & Hp). apply H in Ht. subst. discriminate.
  - reflexivity.
  - trivial.
  - lia.
  - reflexivity.
  - intros t v i Ht. apply H in Ht. discriminate.
  - intros t v Ht. apply H in Ht. discriminate.
  - intros _ (t & v & r & Ht). apply H in Ht. discriminate.
Qed.

(** Two threads that hold the lock are one thread. *)
Lemma inv_exclusive (s : cstate) (t t' : nat) (v v' : string) (p p' : pc) :
  inv key values st0 e0 s ->
  nth_error (cthreads s) t = Some (v, p) -> in_cs p = true ->
  nth_error (cthreads s) t' = Some (v', p') -> in_cs p' = true ->
  t = t'.
Proof.
  intros I H1 C1 H2 C2.
  pose proof (inv_owner _ _ _ _ s I _ _ _ H1 C1) as E1.
  pose proof (inv_owner _ _ _ _ s I _ _ _ H2 C2) as E2.
  congruence.
Qed.

Lemma in_values (s : cstate) (t : nat) (v : string) (p : pc) :
  inv key values st0 e0 s -> nth_error (cthreads s) t = Some (v, p) ->
  In v values.
Proof.
  intros I Ht. rewrite <- (inv_values _ _ _ _ s I).
  change v with (fst (v, p)). apply in_map. now apply nth_error_In in Ht.
Qed.

(** A thread that holds the lock moves on to a later statement [p'] of
    the block: what has to hold afterwards. *)
Lemma inv_inside (s : cstate) (t : nat) (v : string) (p p' : pc)
      (st' : dict) (e' : Env) :
  inv key values st0 e0 s ->
  nth_error (cthreads s) t = Some (v, p) ->
  in_cs p = true -> in_cs p' = true ->
  wfail e' = wfail e0 ->
  (exists v, In v values /\ dict_get st' key = Some v) ->
  (forall k, k <> key -> dict_get st' k = dict_get st0 k) ->
  (NoDup (keys st0) -> NoDup (keys st')) ->
  length st' <= S (length st0) ->
  (dict_mem st' key = false -> length st' = length st0) ->
  (forall i, p' = AtWrite i -> file e' = Some (render (firstn i st'))) ->
  (p' = AtExit -> wfail e0 = None -> agrees st' e') ->
  inv key values st0 e0
      (mkC st' e' (clock s) (upd t (v, p') (cthreads s))).
Proof.
  intros I Ht Hp Hp' Hw Hst Hoth Hk Hlen Hfr Hwr Hex.
  pose proof (inv_owner _ _ _ _ s I _ _ _ Ht Hp) as Hl.
  assert (Hother : forall t' v' q,
             nth_error (upd t (v, p') (cthreads s)) t' = Some (v', q) ->
             in_cs q = true -> t' = t).
  { intros t' v' q H Hq.
    destruct (nth_error_upd _ _ _ _ _ _ Ht H) as [[-> _]|[Hne Hold]];
      [reflexivity|].
    apply (inv_exclusive s t' t v' v q p I Hold Hq Ht Hp). }
  constructor; simpl.
  - rewrite (map_fst_upd _ _ _ _ _ Ht). apply (inv_values _ _ _ _ s I).
  - exact Hw.
  - intros t' v' q H Hq. rewrite (Hother _ _ _ H Hq). exact Hl.
  - intros t' H. rewrite Hl in H. inversion H; subst t'.
    exists v, p'. split; [|exact Hp'].
    apply (nth_error_upd_same _ _ _ _ Ht).
  - intros _. exact Hst.
  - exact Hoth.
  - exact Hk.
  - exact Hlen.
  - exact Hfr.
  - intros t' v' i H. assert (t' = t) by (apply (Hother _ _ _ H eq_refl)).
    subst t'. rewrite (nth_error_upd_same _ _ _ _ Ht) in H.
    inversion H; subst. now apply Hwr.
  - intros t' v' H. assert (t' = t) by (apply (Hother _ _ _ H eq_refl)).
    subst t'. rewrite (nth_error_upd_same _ _ _ _ Ht) in H.
    inversion H; subst. now apply Hex.
  - intros H. congruence.
Qed.
Lemma inv_acquire (s : cstate) (t : nat) (v : string) :
  inv key values st0 e0 s ->
  nth_error (cthreads s) t = Some (v, AtLock) ->
  clock s = None ->
  inv key values st0 e0
      (mkC (cstore s) (cenv s) (Some t) (upd t (v, AtStore) (cthreads s))).
Proof.
  intros I Ht Hl.
  assert (Hother : forall t' v' q,
             nth_error (upd t (v, AtStore) (cthreads s)) t' = Some (v', q) ->
             in_cs q = true -> t' = t).
  { intros t' v' q H Hq.
    destruct (nth_error_upd _ _ _ _ _ _ Ht H) as [[-> _]|[Hne Hold]];
      [reflexivity|].
    pose proof (inv_owner _ _ _ _ s I _ _ _ Hold Hq). congruence. }
  constructor; simpl.
  - rewrite (map_fst_upd _ _ _ _ _ Ht). apply (inv_values _ _ _ _ s I).
  - apply (inv_wfail _ _ _ _ s I).
  - intros t' v' q H Hq. now rewrite (Hother _ _ _ H Hq).
  - intros t' H. inversion H; subst t'. exists v, AtStore.
    split; [apply (nth_error_upd_same _ _ _ _ Ht)|reflexivity].
  - intros (t' & v' & q & H & Hq). apply (inv_stored _ _ _ _ s I).
    destruct (nth_error_upd _ _ _ _ _ _ Ht H) as [[-> E]|[Hne Hold]].
    + inversion E; subst. discriminate.
    + now exists t', v', q.
  - apply (inv_others _ _ _ _ s I).
  - apply (inv_keys _ _ _ _ s I).
  - apply (inv_length _ _ _ _ s I).
  - apply (inv_fresh _ _ _ _ s I).
  - intros t' v' i H. pose proof (Hother _ _ _ H eq_refl). subst t'.
    rewrite (nth_error_upd_same _ _ _ _ Ht) in H. discriminate.
  - intros t' v' H. pose proof (Hother _ _ _ H eq_refl). subst t'.
    rewrite (nth_error_upd_same _ _ _ _ Ht) in H. discriminate.
  - discriminate.
Qed.

Lemma inv_release (s : cstate) (t : nat) (v r : string) :
  inv key values st0 e0 s ->
  nth_error (cthreads s) t = Some (v, AtExit) ->
  inv key values st0 e0
      (mkC (cstore s) (cenv s) None (upd t (v, Done r) (cthreads s))).
Proof.
  intros I Ht.
  assert (Hother : forall t' v' q,
             nth_error (upd t (v, Done r) (cthreads s)) t' = Some (v', q) ->
             in_cs q = true -> False).
  { intros t' v' q H Hq.
    destruct (nth_error_upd _ _ _ _ _ _ Ht H) as [[-> E]|[Hne Hold]].
    - inversion E; subst. discriminate.
    - apply Hne.
      apply (inv_exclusive s t' t v' v q AtExit I Hold Hq Ht eq_refl). }
  constructor; simpl.
  - rewrite (map_fst_upd _ _ _ _ _ Ht). apply (inv_values _ _ _ _ s I).
  - apply (inv_wfail _ _ _ _ s I).
  - intros t' v' q H Hq. exfalso. apply (Hother _ _ _ H Hq).
  - discriminate.
  - intros _. apply (inv_stored _ _ _ _ s I). now exists t, v, AtExit.
  - apply (inv_others _ _ _ _ s I).
  - apply (inv_keys _ _ _ _ s I).
  - apply (inv_length _ _ _ _ s I).
  - apply (inv_fresh _ _ _ _ s I).
  - intros t' v' i H. exfalso. apply (Hother _ _ _ H eq_refl).
  - intros t' v' H. exfalso. apply (Hother _ _ _ H eq_refl).
  - intros _ _. apply (inv_exit _ _ _ _ s I _ _ Ht).
Qed.

Lemma inv_step (s s' : cstate) (t : nat) :
  inv key values st0 e0 s -> step key t s = Some s' ->
  inv key values st0 e0 s'.
Proof.
  intros I. unfold step.
  destruct (nth_error (cthreads s) t) as [[v p]|] eqn:Ht; [|discriminate].
  pose proof (inv_wfail _ _ _ _ s I) as Hw.
  pose proof (inv_others _ _ _ _ s I) as Ho.
  pose proof (inv_keys _ _ _ _ s I) as Hk.
  pose proof (inv_length _ _ _ _ s I) as Hlen.
  pose proof (inv_fresh _ _ _ _ s I) as Hfr.
  assert (Hst : has_stored p = true ->
                exists v, In v values /\ dict_get (cstore s) key = Some v).
  { intros Hp. apply (inv_stored _ _ _ _ s I). now exists t, v, p. }
  destruct p as [| | |i| |r].
  - destruct (clock s) eqn:Hl; [discriminate|].
    intros H. inversion H; subst. now apply inv_acquire.
  - intros H. inversion H; subst. clear H.
    apply (inv_inside s t v AtStore AtSave);
      [exact I|exact Ht|reflexivity|reflexivity|exact Hw| | | | | | | ].
    + exists v. split; [apply (in_values s t v AtStore I Ht)|].
      apply dict_get_set_same.
    + intros k Hne. rewrite dict_get_set_other by exact Hne. now apply Ho.
    + intros Hn. apply NoDup_dict_set. now apply Hk.
    + rewrite dict_set_length.
      destruct (dict_mem (cstore s) key); [lia|]. rewrite Hfr; auto.
    + unfold dict_mem. now rewrite dict_get_set_same.
    + discriminate.
    + discriminate.
  - assert (Hopen : inv key values st0 e0
              (mkC (cstore s)
                   (write_file EmptyString
                      (emit OpenWrite
                         (print "[DEBUG] Calling save()" (cenv s))))
                   (clock s) (upd t (v, AtWrite 0) (cthreads s)))).
    { apply (inv_inside s t v AtSave (AtWrite 0));
        [exact I|exact Ht|reflexivity|reflexivity|exact Hw|now apply Hst
        |exact Ho|exact Hk|exact Hlen|exact Hfr| | ].
      - intros i Hi. inversion Hi; subst. reflexivity.
      - discriminate. }
    simpl. destruct (wfail (cenv s)) as [msg|] eqn:Hf;
      [destruct (wtorn (cenv s)) as [n|]|];
      intros H; injection H as <-; try exact Hopen.
    apply (inv_inside s t v AtSave AtExit);
      [exact I|exact Ht|reflexivity|reflexivity| |now apply Hst
      |exact Ho|exact Hk|exact Hlen|exact Hfr| | ].
    + simpl. congruence.
    + discriminate.
    + intros _ Hn. congruence.
  - pose proof (inv_write _ _ _ _ s I _ _ _ Ht) as Hfile.
    assert (Hcont : forall kv, nth_error (cstore s) i = Some kv ->
              inv key values st0 e0
                (mkC (cstore s) (append_file (entry_line kv) (cenv s))
                     (clock s) (upd t (v, AtWrite (S i)) (cthreads s)))).
    { intros kv Hi.
      apply (inv_inside s t v (AtWrite i) (AtWrite (S i)));
        [exact I|exact Ht|reflexivity|reflexivity| |now apply Hst
        |exact Ho|exact Hk|exact Hlen|exact Hfr| | ].
      - unfold append_file. rewrite Hfile. exact Hw.
      - intros j Hj. inversion Hj; subst j. unfold append_file.
        rewrite Hfile. unfold write_file. cbn [file].
        now rewrite (render_firstn_S _ _ _ Hi).
      - discriminate. }
    assert (Hraise : forall text msg, wfail (cenv s) = Some msg ->
              inv key values st0 e0
                (mkC (cstore s)
                     (print "[DEBUG] Finished save()"
                        (print ("[ERROR] Error saving data: " ++ msg)
                           (write_file text (cenv s))))
                     (clock s) (upd t (v, AtExit) (cthreads s)))).
    { intros text msg Hf.
      apply (inv_inside s t v (AtWrite i) AtExit);
        [exact I|exact Ht|reflexivity|reflexivity|exact Hw|now apply Hst
        |exact Ho|exact Hk|exact Hlen|exact Hfr| | ].
      - discriminate.
      - intros _ Hn. congruence. }
    assert (Hfin : nth_error (cstore s) i = None ->
              inv key values st0 e0
                (mkC (cstore s) (print "[DEBUG] Finished save()" (cenv s))
                     (clock s) (upd t (v, AtExit) (cthreads s)))).
    { intros Hi.
      apply (inv_inside s t v (AtWrite i) AtExit);
        [exact I|exact Ht|reflexivity|reflexivity|exact Hw|now apply Hst
        |exact Ho|exact Hk|exact Hlen|exact Hfr| | ].
      - discriminate.
      - intros _ _. unfold agrees. simpl. rewrite Hfile.
        apply nth_error_None in Hi. now rewrite firstn_all2. }
    destruct (nth_error (cstore s) i) as [kv|] eqn:Hi;
      (destruct (wfail (cenv s)) as [msg|] eqn:Hf;
       [destruct (wtorn (cenv s)) as [n|]|]);
      try destruct (Nat.ltb _ _);
      intros H; injection H as <-;
      first [now apply Hcont|now apply Hraise|now apply Hfin].
  - intros H. inversion H; subst. now apply inv_release.
  - discriminate.
Qed.

Lemma inv_turn (s : cstate) (t : nat) :
  inv key values st0 e0 s -> inv key values st0 e0 (turn key s t).
Proof.
  intros I. unfold turn. destruct (step key t s) eqn:E; [|exact I].
  now apply (inv_step s c t).
Qed.

Lemma inv_run (schedule : list nat) (s : cstate) :
  inv key values st0 e0 s -> inv key values st0 e0 (run key schedule s).
Proof.
  unfold run. revert s.
  induction schedule as [|t sch IH]; intros s I; simpl; [exact I|].
  apply IH. now apply inv_turn.
Qed.

(** Every state reached from the start satisfies the invariant. *)
Lemma inv_reach (schedule : list nat) :
  inv key values st0 e0 (run key schedule (start st0 e0 values)).
Proof. apply inv_run, inv_start. Qed.

(** Mutual exclusion: in a reachable state at most one thread is between
    [with self.lock:] and the end of its block. *)
Lemma mutual_exclusion (schedule : list nat) (t t' : nat) (v v' : string)
      (p p' : pc) :
  let s := run key schedule (start st0 e0 values) in
  nth_error (cthreads s) t = Some (v, p) -> in_cs p = true ->
  nth_error (cthreads s) t' = Some (v', p') -> in_cs p' = true ->
  t = t'.
Proof. intros s. apply inv_exclusive. apply inv_reach. Qed.

Lemma all_done_nth (s : cstate) (t : nat) (v : string) (p : pc) :
  all_done s = true -> nth_error (cthreads s) t = Some (v, p) ->
  exists r, p = Done r.
Proof.
  unfold all_done. intros H Ht. apply nth_error_In in Ht.
  rewrite forallb_forall in H. specialize (H _ Ht). unfold is_done in H.
  simpl in H. destruct p; try discriminate. now exists r.
Qed.

Lemma done_state (s : cstate) :
  values <> [] -> inv key values st0 e0 s -> all_done s = true ->
  (exists v, In v values /\ dict_get (cstore s) key = Some v)
  /\ (forall k, k <> key -> dict_get (cstore s) k = dict_get st0 k)
  /\ (NoDup (keys st0) -> NoDup (keys (cstore s)))
  /\ clock s = None
  /\ (wfail e0 = None -> agrees (cstore s) (cenv s)).
Proof.
  intros Hv I Hd.
  assert (H0 : exists v r, nth_error (cthreads s) 0 = Some (v, Done r)).
  { pose proof (inv_values _ _ _ _ s I) as E.
    destruct (cthreads s) as [|[v p] l] eqn:Et.
    - simpl in E. congruence.
    - destruct (all_done_nth s 0 v p Hd) as [r ->].
      + now rewrite Et.
      + now exists v, r. }
  destruct H0 as (v & r & H0).
  assert (Hl : clock s = None).
  { destruct (clock s) as [t|] eqn:El; [|reflexivity].
    destruct (inv_held _ _ _ _ s I t El) as (v' & p' & Ht & Hp).
    destruct (all_done_nth s t v' p' Hd Ht) as [r' ->]. discriminate. }
  repeat split.
  - apply (inv_stored _ _ _ _ s I). now exists 0, v, (Done r).
  - apply (inv_others _ _ _ _ s I).
  - apply (inv_keys _ _ _ _ s I).
  - exact Hl.
  - intros Hw. apply (inv_free _ _ _ _ s I Hl); [|exact Hw].
    now exists 0, v, r.
Qed.

(** No deadlock: while a thread has not returned, some thread can move. *)
Lemma progress (s : cstate) :
  inv key values st0 e0 s -> all_done s = false ->
  exists t s', step key t s = Some s'.
Proof.
  intros I Hd. destruct (clock s) as [t|] eqn:El.
  - destruct (inv_held _ _ _ _ s I t El) as (v & p & Ht & Hp).
    exists t. unfold step. rewrite Ht.
    destruct p as [| | |i| |r]; try discriminate; simpl.
    + eexists. reflexivity.
    + destruct (wfail (cenv s)); [destruct (wtorn (cenv s))|];
        eexists; reflexivity.
    + destruct (nth_error (cstore s) i);
        (destruct (wfail (cenv s)); [destruct (wtorn (cenv s))|]);
        try destruct (Nat.ltb _ _); eexists; reflexivity.
    + eexists. reflexivity.
  - unfold all_done in Hd.
    assert (Hx : exists th, In th (cthreads s) /\ is_done th = false).
    { clear -Hd. induction (cthreads s) as [|a l IH]; simpl in Hd;
        [discriminate|].
      destruct (is_done a) eqn:Ea.
      - destruct (IH Hd) as [th [H1 H2]]. exists th. split; [now right|auto].
      - exists a. split; [now left|auto]. }
    destruct Hx as ([v p] & Hin & Hnd).
    apply In_nth_error in Hin. destruct Hin as [t Ht].
    exists t. unfold step. rewrite Ht, El.
    destruct p as [| | |i| |r]; try (eexists; reflexivity);
      try (pose proof (inv_owner _ _ _ _ s I _ _ _ Ht eq_refl); congruence).
    discriminate.
Qed.

Lemma list_sum_upd {A : Type} (f : A -> nat) (l : list A) (t : nat)
      (x y : A) :
  nth_error l t = Some y ->
  list_sum (map f (upd t x l)) + f y = list_sum (map f l) + f x.
Proof.
  revert t. induction l as [|a l IH]; intros [|t]; simpl; try congruence.
  - intros H. inversion H; subst. lia.
  - intros H. specialize (IH _ H). lia.
Qed.

(** Every statement run brings the end nearer. *)
Lemma step_measure (s s' : cstate) (t : nat) :
  inv key values st0 e0 s -> step key t s = Some s' ->
  measure st0 s' < measure st0 s.
Proof.
  intros I. unfold step, measure.
  destruct (nth_error (cthreads s) t) as [[v p]|] eqn:Ht; [|discriminate].
  pose proof (inv_length _ _ _ _ s I) as Hlen.
  set (f := fun th : thread => todo (S (length st0)) (snd th)).
  assert (Hsum : forall p',
             todo (S (length st0)) p' < todo (S (length st0)) p ->
             list_sum (map f (upd t (v, p') (cthreads s)))
             < list_sum (map f (cthreads s))).
  { intros p' Hlt.
    pose proof (list_sum_upd f _ t (v, p') (v, p) Ht) as E.
    change (f (v, p)) with (todo (S (length st0)) p) in E.
    change (f (v, p')) with (todo (S (length st0)) p') in E.
    clearbody f. unfold thread in *. lia. }
  destruct p as [| | |i| |r].
  - destruct (clock s); [discriminate|].
    intros H. inversion H; subst. simpl. apply Hsum. simpl. lia.
  - intros H. inversion H; subst. simpl. apply Hsum. simpl. lia.
  - simpl. destruct (wfail (cenv s)); [destruct (wtorn (cenv s))|];
      intros H; inversion H; subst; simpl; apply Hsum; simpl; lia.
  - destruct (nth_error (cstore s) i) as [kv|] eqn:Hi;
      (destruct (wfail (cenv s)); [destruct (wtorn (cenv s))|]);
      try destruct (Nat.ltb _ _);
      intros H; inversion H; subst; simpl; apply Hsum; unfold todo;
      try lia;
      (assert (i < length (cstore s)) by (apply nth_error_Some; congruence));
      lia.
  - intros H. inversion H; subst. simpl. apply Hsum. simpl. lia.
  - discriminate.
Qed.

Lemma completes_n (n : nat) (s : cstate) :
  inv key values st0 e0 s -> measure st0 s <= n ->
  exists schedule, all_done (run key schedule s) = true.
Proof.
  revert s. induction n as [|n IH]; intros s I Hn.
  - destruct (all_done s) eqn:Hd; [now exists []|].
    destruct (progress s I Hd) as (t & s' & Hs).
    pose proof (step_measure s s' t I Hs). lia.
  - destruct (all_done s) eqn:Hd; [now exists []|].
    destruct (progress s I Hd) as (t & s' & Hs).
    pose proof (step_measure s s' t I Hs) as Hm.
    destruct (IH s') as [sch Hsch]; [now apply (inv_step s s' t)|lia|].
    exists (t :: sch). unfold run. simpl. unfold turn at 2. rewrite Hs.
    exact Hsch.
Qed.

(** The calls do complete: from the start there is a run in which every
    thread returns. *)
Lemma completes :
  exists schedule,
    all_done (run key schedule (start st0 e0 values)) = true.
Proof.
  apply (completes_n (measure st0 (start st0 e0 values))).
  - apply inv_start.
  - lia.
Qed.
End Concurrent.

(** C8: threads that each call [set(key, v)] with a value [v] of their own
    run under any schedule; once all calls have returned, the mapping holds
    for [key] one of the values that were set, its other keys are as they
    were and still pairwise different, the lock is free, and if the file
    could be written it holds what [save] writes for that mapping. *)
Theorem concurrent_sets_one_value (key : string) (values : list string)
        (st0 : dict) (e0 : Env) (schedule : list nat) :
  values <> [] ->
  all_done (run key schedule (start st0 e0 values)) = true ->
  let s := run key schedule (start st0 e0 values) in
  (exists v, In v values /\ dict_get (cstore s) key = Some v)
  /\ (forall k, k <> key -> dict_get (cstore s) k = dict_get st0 k)
  /\ (NoDup (keys st0) -> NoDup (keys (cstore s)))
  /\ clock s = None
  /\ (wfail e0 = None -> agrees (cstore s) (cenv s)).
Proof.
  intros Hv Hd s. apply (done_state key values st0 e0); try assumption.
  apply inv_reach.
Qed.

Lemma concurrent_sets_one_value_witness :
  let s := run "k" [0; 1; 2; 0; 1; 0; 0; 0; 2; 1; 0; 0; 1; 1; 1; 2; 1; 1; 1;
                    1; 2; 2; 2; 2; 2; 2; 2]
               (start [("x", "y")] env0 ["1"; "2"; "3"]) in
  (exists v, In v ["1"; "2"; "3"] /\ dict_get (cstore s) "k" = Some v)
  /\ (forall k, k <> "k" -> dict_get (cstore s) k = dict_get [("x", "y")] k)
  /\ (NoDup (keys [("x", "y")]) -> NoDup (keys (cstore s)))
  /\ clock s = None
  /\ (wfail env0 = None -> agrees (cstore s) (cenv s)).
Proof.
  apply (concurrent_sets_one_value "k" ["1"; "2"; "3"] [("x", "y")] env0).
  - discriminate.
  - reflexivity.
Defined.

(** ** One thread alone runs [set] *)

Lemma run_cons (key : string) (t : nat) (schedule : list nat) (s : cstate) :
  run key (t :: schedule) s = run key schedule (turn key s t).
Proof. reflexivity. Qed.

Lemma run_done (key v r : string) (st : dict) (e : Env) (m : nat) :
  run key (repeat 0 m) (mkC st e None [(v, Done r)])
  = mkC st e None [(v, Done r)].
Proof. induction m as [|m IH]; [reflexivity|exact IH]. Qed.

Lemma turn_lock (key v : string) (st : dict) (e : Env) :
  turn key (mkC st e None [(v, AtLock)]) 0
  = mkC st e (Some 0) [(v, AtStore)].
Proof. reflexivity. Qed.

Lemma turn_store (key v : string) (st : dict) (e : Env) (l : option nat) :
  turn key (mkC st e l [(v, AtStore)]) 0
  = mkC (dict_set st key v)
        (print ("[DEBUG] Setting key '" ++ key ++ "' to value '" ++ v ++ "'")
               e)
        l [(v, AtSave)].
Proof. reflexivity. Qed.

Lemma turn_save_fail (key v msg : string) (st : dict) (e : Env)
      (l : option nat) :
  wfail e = Some msg -> wtorn e = None ->
  turn key (mkC st e l [(v, AtSave)]) 0
  = mkC st (print "[DEBUG] Finished save()"
                  (save st (print "[DEBUG] Calling save()" e)))
        l [(v, AtExit)].
Proof.
  intros H Hn. unfold turn, step, save.
  cbn [cthreads nth_error cenv cstore clock print emit wfail wtorn upd].
  now rewrite H, Hn.
Qed.

Lemma turn_save_ok (key v : string) (st : dict) (e : Env) (l : option nat) :
  wfail e = None \/ (exists n, wtorn e = Some n) ->
  turn key (mkC st e l [(v, AtSave)]) 0
  = mkC st (write_file EmptyString
              (emit OpenWrite (print "[DEBUG] Calling save()" e)))
        l [(v, AtWrite 0)].
Proof.
  intros H. unfold turn, step.
  cbn [cthreads nth_error cenv cstore clock print emit wfail wtorn upd].
  destruct H as [H|[n H]]; rewrite H; [reflexivity|].
  now destruct (wfail e).
Qed.

Lemma turn_write_some (key v : string) (st : dict) (e : Env) (l : option nat)
      (i : nat) (kv : string * string) :
  wfail e = None ->
  nth_error st i = Some kv ->
  turn key (mkC st e l [(v, AtWrite i)]) 0
  = mkC st (append_file (entry_line kv) e) l [(v, AtWrite (S i))].
Proof.
  intros Hw H. unfold turn, step.
  cbn [cthreads nth_error cenv cstore clock upd]. now rewrite H, Hw.
Qed.

Lemma turn_write_none (key v : string) (st : dict) (e : Env) (l : option nat)
      (i : nat) :
  wfail e = None ->
  nth_error st i = None ->
  turn key (mkC st e l [(v, AtWrite i)]) 0
  = mkC st (print "[DEBUG] Finished save()" e) l [(v, AtExit)].
Proof.
  intros Hw H. unfold turn, step.
  cbn [cthreads nth_error cenv cstore clock upd]. now rewrite H, Hw.
Qed.

(** The same two statements when the writing is to fail after [n]
    characters. *)
Lemma turn_write_some_torn (key v msg : string) (st : dict) (e : Env)
      (l : option nat) (i n : nat) (kv : string * string) (written : string) :
  wfail e = Some msg -> wtorn e = Some n -> file e = Some written ->
  nth_error st i = Some kv ->
  turn key (mkC st e l [(v, AtWrite i)]) 0
  = if Nat.ltb n (String.length (written ++ entry_line kv)) then
      mkC st (print "[DEBUG] Finished save()"
                (print ("[ERROR] Error saving data: " ++ msg)
                   (write_file (prefix n (written ++ entry_line kv)) e)))
          l [(v, AtExit)]
    else mkC st (append_file (entry_line kv) e) l [(v, AtWrite (S i))].
Proof.
  intros Hw Hn Hf H. unfold turn, step.
  cbn [cthreads nth_error cenv cstore clock upd]. rewrite H, Hw, Hn, Hf.
  now destruct (Nat.ltb n (String.length (written ++ entry_line kv))).
Qed.

Lemma turn_write_none_torn (key v msg : string) (st : dict) (e : Env)
      (l : option nat) (i n : nat) (written : string) :
  wfail e = Some msg -> wtorn e = Some n -> file e = Some written ->
  nth_error st i = None ->
  turn key (mkC st e l [(v, AtWrite i)]) 0
  = mkC st (print "[DEBUG] Finished save()"
              (print ("[ERROR] Error saving data: " ++ msg)
                 (write_file written e)))
        l [(v, AtExit)].
Proof.
  intros Hw Hn Hf H. unfold turn, step.
  cbn [cthreads nth_error cenv cstore clock upd]. now rewrite H, Hw, Hn, Hf.
Qed.

Lemma turn_exit (key v : string) (st : dict) (e : Env) (l : option nat) :
  turn key (mkC st e l [(v, AtExit)]) 0
  = mkC st e None
        [(v, Done ("Added key '" ++ key ++ "' with value '" ++ v ++ "'"
                   ++ nl))].
Proof. reflexivity. Qed.

Lemma run_write_loop (key v : string) (st : dict) (e : Env) (l : option nat)
      (m : nat) :
  wfail e = None ->
  forall i, i + m = length st ->
  run key (repeat 0 (S (S m)))
      (mkC st (write_file (render (firstn i st)) e) l [(v, AtWrite i)])
  = mkC st (print "[DEBUG] Finished save()" (write_file (render st) e))
        None
        [(v, Done ("Added key '" ++ key ++ "' with value '" ++ v ++ "'"
                   ++ nl))].
Proof.
  intros Hw. induction m as [|m IH]; intros i Hi.
  - assert (Hn : nth_error st i = None) by (apply nth_error_None; lia).
    change (repeat 0 2) with [0; 0].
    rewrite run_cons,
      (turn_write_none key v st (write_file (render (firstn i st)) e) l i
         Hw Hn).
    rewrite run_cons, turn_exit.
    rewrite firstn_all2 by lia. reflexivity.
  - destruct (nth_error st i) as [kv|] eqn:Hn.
    + change (repeat 0 (S (S (S m)))) with (0 :: repeat 0 (S (S m))).
      rewrite run_cons,
        (turn_write_some key v st (write_file (render (firstn i st)) e) l i
           kv Hw Hn).
      change (append_file (entry_line kv) (write_file (render (firstn i st)) e))
        with (write_file (render (firstn i st) ++ entry_line kv) e).
      rewrite <- (render_firstn_S _ _ _ Hn).
      apply (IH (S i)). lia.
    + apply nth_error_None in Hn. lia.
Qed.

Lemma prefix_all (n : nat) (s : string) :
  String.length s <= n -> prefix n s = s.
Proof.
  revert n. induction s as [|c s IH]; intros [|n] H; simpl in *;
    try reflexivity; try lia.
  rewrite IH by lia. reflexivity.
Qed.

Lemma prefix_app (n : nat) (a b : string) :
  n <= String.length a -> prefix n (a ++ b) = prefix n a.
Proof.
  revert n. induction a as [|c a IH]; intros [|n] H; simpl in *;
    try reflexivity; try lia.
  rewrite IH by lia. reflexivity.
Qed.

Lemma render_firstn_skipn (i : nat) (st : dict) :
  render st = render (firstn i st) ++ render (skipn i st).
Proof. now rewrite <- render_app, firstn_skipn. Qed.

(** The loop of [save] when the writing fails after [n] characters: the
    file is left with the first [n] characters of what was to be written. *)
Lemma run_write_loop_torn (key v msg : string) (st : dict) (e : Env)
      (l : option nat) (n m : nat) :
  wfail e = Some msg -> wtorn e = Some n ->
  forall i, i + m = length st ->
  String.length (render (firstn i st)) <= n ->
  run key (repeat 0 (S (S m)))
      (mkC st (write_file (render (firstn i st)) e) l [(v, AtWrite i)])
  = mkC st (print "[DEBUG] Finished save()"
              (print ("[ERROR] Error saving data: " ++ msg)
                 (write_file (prefix n (render st)) e)))
        None
        [(v, Done ("Added key '" ++ key ++ "' with value '" ++ v ++ "'"
                   ++ nl))].
Proof.
  intros Hw Ht. induction m as [|m IH]; intros i Hi Hlen.
  - assert (Hn : nth_error st i = None) by (apply nth_error_None; lia).
    change (repeat 0 2) with [0; 0].
    rewrite run_cons,
      (turn_write_none_torn key v msg st
         (write_file (render (firstn i st)) e) l i n (render (firstn i st))
         Hw Ht eq_refl Hn).
    rewrite run_cons, turn_exit.
    rewrite firstn_all2 in * by lia. rewrite prefix_all by exact Hlen.
    reflexivity.
  - destruct (nth_error st i) as [kv|] eqn:Hn;
      [|apply nth_error_None in Hn; lia].
    change (repeat 0 (S (S (S m)))) with (0 :: repeat 0 (S (S m))).
    rewrite run_cons,
      (turn_write_some_torn key v msg st
         (write_file (render (firstn i st)) e) l i n kv (render (firstn i st))
         Hw Ht eq_refl Hn).
    rewrite <- (render_firstn_S _ _ _ Hn).
    destruct (Nat.ltb n (String.length (render (firstn (S i) st)))) eqn:Hlt.
    + apply Nat.ltb_lt in Hlt.
      change (repeat 0 (S (S m))) with (0 :: repeat 0 (S m)).
      rewrite run_cons, turn_exit, run_done.
      rewrite (render_firstn_skipn (S i) st).
      rewrite prefix_app by lia. reflexivity.
    + apply Nat.ltb_ge in Hlt.
      change (append_file (entry_line kv) (write_file (render (firstn i st)) e))
        with (write_file (render (firstn i st) ++ entry_line kv) e).
      rewrite <- (render_firstn_S _ _ _ Hn).
      apply (IH (S i)); [lia|exact Hlt].
Qed.

(** A single thread, run until it has returned, does to the store and to
    the outside what the call [set key v] does, and returns its text. *)
Lemma solo_set (key v : string) (st : dict) (e : Env) :
  run key (repeat 0 (5 + length (dict_set st key v))) (start st e [v])
  = let '(r, st', e') := set key v st e in mkC st' e' None [(v, Done r)].
Proof.
  unfold set, start.
  change (map (fun v0 : string => (v0, AtLock)) [v]) with [(v, AtLock)].
  change (repeat 0 (5 + length (dict_set st key v)))
    with (0 :: 0 :: 0 :: repeat 0 (2 + length (dict_set st key v))).
  rewrite run_cons, turn_lock, run_cons, turn_store, run_cons.
  set (st' := dict_set st key v).
  set (e1 := print ("[DEBUG] Setting key '" ++ key ++ "' to value '" ++ v
                    ++ "'") e).
  destruct (wfail e1) as [msg|] eqn:Hw; [destruct (wtorn e1) as [n|] eqn:Ht|].
  - rewrite (turn_save_ok key v st' e1 (Some 0))
      by (right; now exists n).
    assert (Hs : save st' (print "[DEBUG] Calling save()" e1)
                 = print ("[ERROR] Error saving data: " ++ msg)
                     (write_file (prefix n (render st'))
                        (emit OpenWrite (print "[DEBUG] Calling save()" e1)))).
    { unfold save. cbn [wfail wtorn emit print]. now rewrite Hw, Ht. }
    rewrite Hs.
    apply (run_write_loop_torn key v msg st' _ (Some 0) n (length st'));
      [exact Hw|exact Ht|reflexivity|simpl; lia].
  - rewrite (turn_save_fail key v msg st' e1 (Some 0) Hw Ht).
    change (repeat 0 (2 + length st')) with (0 :: repeat 0 (1 + length st')).
    rewrite run_cons, turn_exit. apply run_done.
  - rewrite (turn_save_ok key v st' e1 (Some 0)) by now left.
    assert (Hs : save st' (print "[DEBUG] Calling save()" e1)
                 = write_file (render st')
                     (emit OpenWrite (print "[DEBUG] Calling save()" e1))).
    { unfold save. cbn [wfail emit print]. now rewrite Hw. }
    rewrite Hs.
    apply (run_write_loop key v st' _ (Some 0) (length st'));
      [exact Hw|reflexivity].
Qed.

(** ** The stores that the server holds

    The store is built by [load] and changed by the interpreter only, whose
    keys and values are tokens of a command line: all its entries are ones
    the file format carries. *)

Lemma split_cons (c : ascii) (s : string) :
  split (String c s) =
  if isspace c then split s
  else match s with
       | EmptyString => [String c EmptyString]
       | String c' _ =>
           if isspace c' then String c EmptyString :: split s
           else match split s with
                | t :: ts => String c t :: ts
                | [] => [String c EmptyString]
                end
       end.
Proof. reflexivity. Qed.

Lemma token_single (c : ascii) :
  isspace c = false -> token (String c EmptyString) = true.
Proof. intros H. unfold token. cbn. now rewrite H. Qed.

Lemma token_cons (c : ascii) (t : string) :
  isspace c = false -> token t = true -> token (String c t) = true.
Proof.
  intros H Ht. unfold token in *. apply andb_true_iff in Ht.
  destruct Ht as [_ Ht]. cbn. now rewrite H, Ht.
Qed.

Lemma split_tokens (s : string) : forallb token (split s) = true.
Proof.
  induction s as [|c s IH]; [reflexivity|].
  rewrite split_cons. destruct (isspace c) eqn:Ec; [exact IH|].
  destruct s as [|c' s'].
  - cbn [forallb]. now rewrite token_single.
  - destruct (isspace c') eqn:Ec'.
    + cbn [forallb]. now rewrite IH, token_single.
    + destruct (split (String c' s')) as [|t ts].
      * cbn [forallb]. now rewrite token_single.
      * cbn [forallb] in *. apply andb_true_iff in IH.
        destruct IH as [Ht Hts]. now rewrite Hts, token_cons.
Qed.

Lemma no_space_mem (c : ascii) (s : string) :
  no_space s = true -> isspace c = true -> mem_char c s = false.
Proof.
  intros Hs Hc. induction s as [|x s IH]; [reflexivity|].
  simpl in *. apply andb_true_iff in Hs. destruct Hs as [H1 H2].
  apply negb_true_iff in H1. rewrite (IH H2), orb_false_r.
  now apply not_space_neq.
Qed.

Lemma no_space_ends (s : string) : no_space s = true -> ends_space s = false.
Proof.
  induction s as [|x s IH]; [reflexivity|].
  simpl. intros H. apply andb_true_iff in H. destruct H as [H1 H2].
  apply negb_true_iff in H1. destruct s; [exact H1|now apply IH].
Qed.

Lemma token_clean (k v : string) :
  token k = true -> token v = true -> clean_entry (k, v) = true.
Proof.
  unfold token. rewrite !andb_true_iff. intros [Hk1 Hk2] [Hv1 Hv2].
  unfold clean_entry, clean_key, clean_value, no_break. simpl fst. simpl snd.
  rewrite Hk1, Hv1.
  rewrite (no_space_mem TAB k Hk2 isspace_TAB).
  rewrite (no_space_mem LF k Hk2 isspace_LF), (no_space_mem CR k Hk2 isspace_CR).
  rewrite (no_space_mem LF v Hv2 isspace_LF), (no_space_mem CR v Hv2 isspace_CR).
  rewrite (no_space_ends v Hv2).
  destruct k as [|x k]; [discriminate|].
  simpl in Hk2. apply andb_true_iff in Hk2. destruct Hk2 as [Hx _].
  simpl. now rewrite Hx.
Qed.

(** A mapping of tokens with pairwise different keys is such a store. *)
Lemma tokens_store_ok (st : dict) :
  uniq (keys st) = true ->
  forallb (fun kv => token (fst kv) && token (snd kv)) st = true ->
  store_ok st.
Proof.
  intros Hu Ht. split; [exact Hu|]. clear Hu. unfold clean_store.
  induction st as [|[k v] st IH]; [reflexivity|].
  simpl in *. rewrite !andb_true_iff in *.
  destruct Ht as [[Hk Hv] Ht].
  split; [now apply token_clean|now apply IH].
Qed.

Lemma parse_and_execute_ok (command : string) (st : dict) (e : Env) :
  store_ok st -> store_ok (snd (fst (parse_and_execute command st e))).
Proof.
  intros [Hu Hc]. unfold parse_and_execute.
  destruct (is_empty (strip command)); [now split|].
  pose proof (split_tokens (strip command)) as Ht.
  destruct (split (strip command)) as [|tok0 args]; [now split|].
  destruct (cp_eqb (upper tok0) (codepoints "SET")).
  - destruct args as [|k [|v [|x r]]]; try (now split).
    simpl in Ht. rewrite !andb_true_iff in Ht.
    destruct Ht as (_ & Hk & Hv & _). unfold set. simpl. split.
    + apply uniq_NoDup, NoDup_dict_set. now apply uniq_NoDup.
    + apply clean_dict_set; [exact Hc|now apply token_clean].
  - destruct (cp_eqb (upper tok0) (codepoints "GET")).
    + destruct args as [|k [|x r]]; now split.
    + destruct (cp_eqb (upper tok0) (codepoints "REMOVE")).
      * destruct args as [|k [|x r]]; try (now split).
        unfold remove. destruct (dict_mem st k); [|now split]. simpl. split.
        -- apply uniq_NoDup, NoDup_dict_del. now apply uniq_NoDup.
        -- now apply clean_dict_del.
      * destruct (cp_eqb (upper tok0) (codepoints "PRINT")); now split.
Qed.

Lemma session_ok (commands : list string) (st : dict) (e : Env) :
  store_ok st -> store_ok (snd (fst (session commands st e))).
Proof.
  revert st e. induction commands as [|c cs IH]; intros st e H; [exact H|].
  simpl. pose proof (parse_and_execute_ok c st e H) as H1.
  destruct (parse_and_execute c st e) as [[r st1] e1]. simpl in H1.
  specialize (IH st1 e1 H1).
  destruct (session cs st1 e1) as [[rs st2] e2]. exact IH.
Qed.

(** Whatever file the server starts on and whatever commands it is sent,
    its store has pairwise different keys and entries that the file format
    carries. *)
Lemma server_store_ok (e : Env) (commands : list string) :
  let '(st0, e1) := init e in
  store_ok (snd (fst (session commands st0 e1))).
Proof.
  pose proof (fresh_load_clean e) as Hc.
  pose proof (fresh_load_NoDup e) as Hn. unfold fresh_load in *.
  destruct (init e) as [st0 e1]. simpl in *.
  apply session_ok. split; [now apply uniq_NoDup|exact Hc].
Qed.

(** * Further properties of the store *)

Lemma load_as_inserts (lines : list string) (st : dict) :
  fold_left load_line lines st =
  fold_left (fun st kv => dict_set st (fst kv) (snd kv))
    (flat_map (fun l => match parse_line l with
                        | Some kv => [kv]
                        | None => []
                        end) lines) st.
Proof.
  revert st. induction lines as [|l lines IH]; intros st; [reflexivity|].
  simpl. rewrite fold_left_app, IH. unfold load_line.
  destruct (parse_line l) as [[k v]|]; reflexivity.
Qed.

Lemma inserts_last_value (l : list (string * string)) (st : dict)
      (k : string) :
  dict_get (fold_left (fun st kv => dict_set st (fst kv) (snd kv)) l st) k =
  match last_value k l with
  | Some v => Some v
  | None => dict_get st k
  end.
Proof.
  revert st. induction l as [|[k' v] l IH]; intros st; [reflexivity|].
  simpl. rewrite IH. destruct (last_value k l); [reflexivity|].
  destruct (String.eqb k' k) eqn:E.
  - apply String.eqb_eq in E. subst. apply dict_get_set_same.
  - apply String.eqb_neq in E. apply dict_get_set_other. congruence.
Qed.

(** X1: Loading a file: of several lines for one key the last one counts, and
    a key without a line is not in the store. *)
Theorem load_last_line_wins (e : Env) (content k : string) :
  file e = Some content ->
  rfail e = None ->
  dict_get (fresh_load e) k = last_value k (parsed_lines content).
Proof.
  intros Hf Hr. rewrite (fresh_load_file e content Hf Hr).
  rewrite load_as_inserts, inserts_last_value.
  unfold parsed_lines. now destruct (last_value k _).
Qed.

Lemma load_last_line_wins_witness :
  dict_get
    (fresh_load
       (mkEnv (Some ("a" ++ tab ++ "1" ++ nl ++ "junk" ++ nl ++ "b" ++ tab
                     ++ "2" ++ nl ++ nl ++ "a" ++ tab ++ "3" ++ nl))
              None None [])) "a"
  = Some "3".
Proof.
  rewrite (load_last_line_wins _ ("a" ++ tab ++ "1" ++ nl ++ "junk" ++ nl
                                  ++ "b" ++ tab ++ "2" ++ nl ++ nl ++ "a"
                                  ++ tab ++ "3" ++ nl) "a");
    reflexivity.
Defined.

(** X2: Whatever file a store was loaded from, saving that store and loading
    the saved file gives the same store: one load brings any file to a form
    that [save] and [load] keep. *)
Theorem reload_stable (e e' : Env) :
  wfail e' = None ->
  rfail e' = None ->
  fresh_load (save (fresh_load e) e') = fresh_load e.
Proof.
  intros Hw Hr. apply roundtrip_ok; try assumption. split.
  - apply uniq_NoDup, fresh_load_NoDup.
  - apply fresh_load_clean.
Qed.

Lemma reload_stable_witness :
  let e := mkEnv (Some ("  a" ++ tab ++ "1  " ++ nl ++ "junk" ++ nl ++ "a"
                        ++ tab ++ "x" ++ tab ++ "y"))
                 None None [] in
  fresh_load (save (fresh_load e) env0) = fresh_load e.
Proof.
  apply (reload_stable _ env0); reflexivity.
Defined.


Lemma dict_get_del_other (d : dict) (k k0 : string) :
  k0 <> k -> dict_get (dict_del d k) k0 = dict_get d k0.
Proof.
  intros Hne. induction d as [|[k' v'] d IH]; simpl; [reflexivity|].
  destruct (String.eqb k' k) eqn:E; simpl.
  - apply String.eqb_eq in E. subst k'.
    destruct (String.eqb k k0) eqn:E2; [|reflexivity].
    apply String.eqb_eq in E2. congruence.
  - now rewrite IH.
Qed.

Lemma dict_del_set_fresh (d : dict) (k v : string) :
  dict_mem d k = false -> dict_del (dict_set d k v) k = d.
Proof.
  unfold dict_mem. induction d as [|[k' v'] d IH]; simpl.
  - now rewrite String.eqb_refl.
  - destruct (String.eqb k' k) eqn:E; [discriminate|].
    intros H. simpl. rewrite E. now rewrite IH.
Qed.

Lemma dict_mem_set (d : dict) (k v : string) :
  dict_mem (dict_set d k v) k = true.
Proof. unfold dict_mem. now rewrite dict_get_set_same. Qed.

Lemma file_after_save (st : dict) (e : Env) :
  file (save st e) = match wfail e, wtorn e with
                     | Some _, None => file e
                     | Some _, Some n => Some (prefix n (render st))
                     | None, _ => Some (render st)
                     end.
Proof.
  unfold save, emit. cbn [wfail wtorn].
  destruct (wfail e); [|reflexivity]. now destruct (wtorn e).
Qed.

Lemma wfail_print (line : string) (e : Env) : wfail (print line e) = wfail e.
Proof. reflexivity. Qed.

Lemma wfail_after_save (st : dict) (e : Env) : wfail (save st e) = wfail e.
Proof.
  unfold save, emit. cbn [wfail wtorn].
  destruct (wfail e) eqn:E; [|reflexivity]. now destruct (wtorn e).
Qed.



Lemma wfail_after_set (k v : string) (st : dict) (e : Env) :
  wfail (snd (set k v st e)) = wfail e.
Proof.
  unfold set. cbn [snd]. unfold print at 1. unfold emit at 1. cbn [wfail].
  now rewrite wfail_after_save.
Qed.




(** X4: [set] and [remove] of one key leave what [get] returns for every other
    key as it was. *)
Theorem other_keys_untouched (k k' v : string) (st : dict) (e : Env) :
  k' <> k ->
  get k' (snd (fst (set k v st e))) = get k' st
  /\ get k' (snd (fst (remove k st e))) = get k' st.
Proof.
  intros Hne. split.
  - unfold set, get. simpl. now rewrite dict_get_set_other.
  - unfold remove, get. destruct (dict_mem st k); simpl; [|reflexivity].
    now rewrite dict_get_del_other.
Qed.

Lemma other_keys_untouched_witness :
  get "b" (snd (fst (set "a" "9" [("a", "1"); ("b", "2")] env0))) = "2"
  /\ get "b" (snd (fst (remove "a" [("a", "1"); ("b", "2")] env0))) = "2".
Proof.
  apply (other_keys_untouched "a" "b" "9" [("a", "1"); ("b", "2")] env0).
  discriminate.
Defined.

(** X5: Setting a key that is in the store replaces its value where it stands:
    the keys, their order and their number stay, and [get] returns the new
    value. *)
Theorem set_overwrites_in_place (k v : string) (st : dict) (e : Env) :
  dict_mem st k = true ->
  let '(_, st1, _) := set k v st e in
  keys st1 = keys st /\ length st1 = length st /\ get k st1 = v.
Proof.
  intros Hm. unfold set. repeat split.
  - now rewrite keys_dict_set, Hm.
  - now rewrite dict_set_length, Hm.
  - apply get_after_set.
Qed.

Lemma set_overwrites_in_place_witness :
  let '(_, st1, _) := set "a" "9" [("a", "1"); ("b", "2")] env0 in
  keys st1 = ["a"; "b"] /\ length st1 = 2 /\ get "a" st1 = "9".
Proof.
  apply (set_overwrites_in_place "a" "9" [("a", "1"); ("b", "2")] env0).
  reflexivity.
Defined.

(** X6: Setting a key that is not in the store and removing it again gives the
    mapping back as it was, and the file, when it can be written, holds
    that mapping. *)
Theorem set_then_remove (k v : string) (st : dict) (e : Env) :
  dict_mem st k = false ->
  let '(_, st1, e1) := set k v st e in
  let '(r, st2, e2) := remove k st1 e1 in
  r = "Removed key '" ++ k ++ "'." ++ nl
  /\ st2 = st
  /\ (wfail e = None -> agrees st e2).
Proof.
  intros Hm. unfold set, remove. rewrite dict_mem_set.
  rewrite (dict_del_set_fresh _ _ _ Hm). repeat split.
  intros Hw. unfold agrees. rewrite file_after_save.
  now rewrite wfail_print, wfail_after_save, !wfail_print, Hw.
Qed.

Lemma set_then_remove_witness :
  let '(_, st1, e1) := set "b" "2" [("a", "1")] env0 in
  let '(r, st2, e2) := remove "b" st1 e1 in
  r = "Removed key 'b'." ++ nl
  /\ st2 = [("a", "1")]
  /\ (wfail env0 = None -> agrees [("a", "1")] e2).
Proof.
  apply (set_then_remove "b" "2" [("a", "1")] env0). reflexivity.
Defined.

(** X7: After [remove(k)], whether the key was there or not, [get(k)] returns
    the not-found text and a second [remove(k)] returns it too and changes
    nothing. *)
Theorem remove_twice (k : string) (st : dict) (e : Env) :
  uniq (keys st) = true ->
  let '(_, st1, e1) := remove k st e in
  get k st1 = "Key '" ++ k ++ "' not found."
  /\ remove k st1 e1 = ("Key '" ++ k ++ "' not found.", st1, e1).
Proof.
  intros Hu. unfold remove at 1. destruct (dict_mem st k) eqn:Hm.
  - pose proof (dict_mem_del st k Hu) as Hd. split.
    + unfold get. unfold dict_mem in Hd.
      now destruct (dict_get (dict_del st k) k).
    + unfold remove. now rewrite Hd.
  - split.
    + unfold get. unfold dict_mem in Hm. now destruct (dict_get st k).
    + unfold remove. now rewrite Hm.
Qed.

Lemma remove_twice_witness :
  let '(_, st1, e1) := remove "a" [("a", "1"); ("b", "2")] env0 in
  get "a" st1 = "Key 'a' not found."
  /\ remove "a" st1 e1 = ("Key 'a' not found.", st1, e1).
Proof.
  apply (remove_twice "a" [("a", "1"); ("b", "2")] env0). reflexivity.
Defined.

(** ** The listing of [print_store] *)

Lemma print_fold (st : dict) (acc : string) :
  fold_left
    (fun response kv =>
       response ++ "[KEY]: " ++ fst kv ++ tab ++ "[VALUE]: " ++ snd kv ++ nl)
    st acc
  = acc ++ listing st.
Proof.
  revert acc. induction st as [|kv st IH]; intros acc.
  - simpl. now rewrite append_empty_r.
  - cbn [fold_left]. rewrite IH. rewrite append_assoc. reflexivity.
Qed.

Lemma print_store_listing (st : dict) :
  st <> [] -> print_store st = listing st.
Proof.
  destruct st as [|kv st]; [congruence|]. intros _.
  unfold print_store. now rewrite print_fold.
Qed.

Lemma listing_cons (kv : string * string) (st : dict) :
  listing (kv :: st) = listing_line kv ++ listing st.
Proof. reflexivity. Qed.

Lemma listing_app (a b : dict) : listing (a ++ b)%list = listing a ++ listing b.
Proof.
  induction a as [|kv a IH]; [reflexivity|].
  rewrite <- app_comm_cons, !listing_cons, IH. now rewrite append_assoc.
Qed.

(** X8: The response of PRINT is the empty-store text exactly when the store is
    empty. *)
Theorem print_store_empty_iff (st : dict) :
  print_store st = "Store is empty." ++ nl <-> st = [].
Proof.
  split.
  - destruct st as [|kv st]; [reflexivity|].
    rewrite print_store_listing by discriminate. simpl. discriminate.
  - intros ->. reflexivity.
Qed.

(** X9: Every entry of the store has its line in the response of PRINT. *)
Theorem print_lists_every_entry (k v : string) (st : dict) :
  In (k, v) st ->
  exists before after,
    print_store st
    = before ++ ("[KEY]: " ++ k ++ tab ++ "[VALUE]: " ++ v ++ nl) ++ after.
Proof.
  intros Hin. rewrite print_store_listing by (destruct st; [contradiction|discriminate]).
  apply in_split in Hin. destruct Hin as (a & b & ->).
  exists (listing a), (listing b). rewrite listing_app. reflexivity.
Qed.

Lemma print_lists_every_entry_witness :
  exists before after,
    print_store [("a", "1"); ("b", "2"); ("c", "3")]
    = before ++ ("[KEY]: b" ++ tab ++ "[VALUE]: 2" ++ nl) ++ after.
Proof.
  apply (print_lists_every_entry "b" "2" [("a", "1"); ("b", "2"); ("c", "3")]).
  simpl. tauto.
Defined.

(** X10: After [set] of a key that was not in the store, PRINT answers with the
    entry lines it had before, in their order, followed by the line of the
    new entry. *)
Theorem print_after_new_key (k v : string) (st : dict) (e : Env) :
  dict_mem st k = false ->
  let '(_, st1, _) := set k v st e in
  print_store st1
  = match st with [] => EmptyString | _ => print_store st end
    ++ "[KEY]: " ++ k ++ tab ++ "[VALUE]: " ++ v ++ nl.
Proof.
  intros Hm. unfold set.
  assert (Hk : ~ In k (keys st)).
  { intros Hin. apply dict_mem_true in Hin. congruence. }
  rewrite (dict_set_fresh st k v Hk).
  rewrite print_store_listing by (destruct st; discriminate).
  rewrite listing_app, listing_cons.
  change (listing []) with EmptyString. rewrite append_empty_r.
  destruct st as [|kv st]; [reflexivity|].
  now rewrite print_store_listing by discriminate.
Qed.

Lemma print_after_new_key_witness :
  let '(_, st1, _) := set "b" "2" [("a", "1")] env0 in
  print_store st1
  = print_store [("a", "1")] ++ "[KEY]: b" ++ tab ++ "[VALUE]: 2" ++ nl.
Proof.
  apply (print_after_new_key "b" "2" [("a", "1")] env0). reflexivity.
Defined.

(** * Further properties of the command interpreter *)

Lemma split_lstrip (s : string) : split (lstrip s) = split s.
Proof.
  induction s as [|c s IH]; [reflexivity|].
  rewrite (split_cons c s). cbn [lstrip].
  destruct (isspace c) eqn:E; [exact IH|].
  now rewrite split_cons, E.
Qed.

Lemma rstrip_first (s : string) (d : ascii) (r : string) :
  rstrip s = String d r -> exists s', s = String d s'.
Proof.
  destruct s as [|c s]; simpl; [discriminate|].
  destruct (is_empty (rstrip s) && isspace c); [discriminate|].
  intros H. inversion H; subst. now exists s.
Qed.

Lemma rstrip_cons (c : ascii) (s : string) :
  rstrip (String c s) =
  if is_empty (rstrip s) && isspace c then EmptyString
  else String c (rstrip s).
Proof. reflexivity. Qed.

Lemma rstrip_empty_split (s : string) : rstrip s = EmptyString -> split s = [].
Proof.
  induction s as [|c s IH]; [reflexivity|].
  rewrite rstrip_cons, split_cons.
  destruct (rstrip s) as [|d r] eqn:R; cbn [is_empty andb].
  - destruct (isspace c); [intros _; now apply IH|discriminate].
  - discriminate.
Qed.

Lemma rstrip_empty_space (s : string) :
  rstrip s = EmptyString -> s = EmptyString \/ starts_space s = true.
Proof.
  destruct s as [|c s]; [now left|]. rewrite rstrip_cons.
  destruct (is_empty (rstrip s) && isspace c) eqn:E; [|discriminate].
  intros _. right. apply andb_true_iff in E. cbn [starts_space]. tauto.
Qed.

Lemma split_rstrip (s : string) : split (rstrip s) = split s.
Proof.
  induction s as [|c s IH]; [reflexivity|].
  rewrite rstrip_cons.
  destruct (rstrip s) as [|d r] eqn:R; cbn [is_empty andb].
  - pose proof (rstrip_empty_split s R) as Hs.
    destruct (isspace c) eqn:E.
    + rewrite split_cons, E. now rewrite Hs.
    + rewrite !split_cons, E.
      destruct (rstrip_empty_space s R) as [->|Hsp]; [reflexivity|].
      destruct s as [|c' s']; [reflexivity|].
      cbn [starts_space] in Hsp. now rewrite Hsp, Hs.
  - destruct (rstrip_first s d r R) as [s' ->].
    rewrite (split_cons c (String d r)), (split_cons c (String d s')).
    destruct (isspace c); [exact IH|].
    destruct (isspace d); now rewrite IH.
Qed.

Lemma split_strip (s : string) : split (strip s) = split s.
Proof. unfold strip. now rewrite split_lstrip, split_rstrip. Qed.

Lemma split_nil_lstrip (s : string) :
  split s = [] <-> lstrip s = EmptyString.
Proof.
  induction s as [|c s IH]; [tauto|].
  rewrite split_cons. cbn [lstrip]. destruct (isspace c); [exact IH|].
  split; [|discriminate].
  destruct s as [|c' s']; [discriminate|].
  destruct (isspace c'); [discriminate|].
  destruct (split (String c' s')); discriminate.
Qed.

Lemma strip_empty_iff (s : string) :
  is_empty (strip s) = true <-> split s = [].
Proof.
  rewrite <- split_rstrip, split_nil_lstrip. unfold strip.
  destruct (lstrip (rstrip s)); simpl; split; congruence.
Qed.

(** X11: The branch of [parse_and_execute] that answers "ERROR: Invalid
    command" is never taken: a command that is not empty once stripped has
    a first token. *)
Theorem invalid_command_unreachable (command : string) :
  is_empty (strip command) = false -> split (strip command) <> [].
Proof.
  intros H Hs. rewrite split_strip in Hs. apply strip_empty_iff in Hs.
  congruence.
Qed.

Lemma invalid_command_unreachable_witness :
  split (strip "  print  ") <> [].
Proof. apply (invalid_command_unreachable "  print  "). reflexivity. Defined.

(** X12: Only the tokens of a command line count: two lines with the same
    tokens, however they are spaced, get the same answer and have the same
    effect. *)
Theorem same_tokens_same_answer (c1 c2 : string) (st : dict) (e : Env) :
  split c1 = split c2 ->
  parse_and_execute c1 st e = parse_and_execute c2 st e.
Proof.
  intros H. unfold parse_and_execute.
  rewrite !split_strip, <- H.
  destruct (is_empty (strip c1)) eqn:E1; destruct (is_empty (strip c2)) eqn:E2;
    try reflexivity.
  - apply strip_empty_iff in E1. rewrite H in E1.
    apply strip_empty_iff in E1. congruence.
  - apply strip_empty_iff in E2. rewrite <- H in E2.
    apply strip_empty_iff in E2. congruence.
Qed.

Lemma same_tokens_same_answer_witness :
  parse_and_execute ("  set" ++ tab ++ "a    1 " ++ nl) [] env0
  = parse_and_execute "set a 1" [] env0.
Proof.
  apply (same_tokens_same_answer ("  set" ++ tab ++ "a    1 " ++ nl)
           "set a 1" [] env0).
  reflexivity.
Defined.

(** X13: Nothing but a SET with two arguments or a REMOVE with one changes the
    store, the file or the output of the process. *)
Theorem only_set_and_remove_write (command : string) (st : dict) (e : Env) :
  let '(_, st', e') := parse_and_execute command st e in
  (st', e') = (st, e)
  \/ exists verb args,
       split command = verb :: args
       /\ ((upper verb = codepoints "SET" /\ length args = 2)
           \/ (upper verb = codepoints "REMOVE" /\ length args = 1)).
Proof.
  unfold parse_and_execute. rewrite split_strip.
  destruct (is_empty (strip command)); [now left|].
  destruct (split command) as [|verb args]; [now left|].
  unfold cp_eqb.
  destruct (list_eq_dec N.eq_dec (upper verb) (codepoints "SET")) as [Hs|_].
  - destruct args as [|k [|v [|x r]]]; try (now left).
    right. exists verb, [k; v]. split; [reflexivity|]. left. now split.
  - destruct (list_eq_dec N.eq_dec (upper verb) (codepoints "GET")) as [_|_].
    + destruct args as [|k [|x r]]; now left.
    + destruct (list_eq_dec N.eq_dec (upper verb) (codepoints "REMOVE"))
        as [Hr|_].
      * destruct args as [|k [|x r]]; try (now left).
        unfold remove. destruct (dict_mem st k); [|now left].
        right. exists verb, [k]. split; [reflexivity|]. right. now split.
      * destruct (list_eq_dec N.eq_dec (upper verb) (codepoints "PRINT"));
          now left.
Qed.

(** ** The verb in any letter case *)

Lemma upper_cons (c : ascii) (s : string) :
  upper (String c s) = (upper_char c ++ upper s)%list.
Proof. reflexivity. Qed.

Lemma upper_char_letter (c : ascii) (x : N) :
  (65 <= x <= 90)%N ->
  upper_char c = [x] <-> (N_of_ascii c = x \/ N_of_ascii c = x + 32)%N.
Proof.
  intros Hx. unfold upper_char. set (n := N_of_ascii c).
  destruct ((97 <=? n) && (n <=? 122))%N eqn:E1.
  { apply andb_true_iff in E1. destruct E1 as [A B].
    apply N.leb_le in A. apply N.leb_le in B.
    split; [intros H; inversion H; lia|intros [H|H]; [lia|f_equal; lia]]. }
  apply andb_false_iff in E1. rewrite !N.leb_gt in E1.
  destruct (n =? 181)%N eqn:E2.
  { apply N.eqb_eq in E2. split; [intros H; inversion H; lia|lia]. }
  destruct (n =? 223)%N eqn:E3.
  { apply N.eqb_eq in E3. split; [intros H; inversion H|lia]. }
  destruct ((224 <=? n) && (n <=? 254) && negb (n =? 247))%N eqn:E4.
  { rewrite !andb_true_iff in E4. destruct E4 as [[A B] _].
    apply N.leb_le in A. apply N.leb_le in B.
    split; [intros H; inversion H; lia|lia]. }
  destruct (n =? 255)%N eqn:E5.
  { apply N.eqb_eq in E5. split; [intros H; inversion H; lia|lia]. }
  split; [intros H; inversion H; lia|intros [H|H]; [f_equal; lia|lia]].
Qed.

Lemma upper_char_shape (c : ascii) :
  (exists h, upper_char c = [h])
  \/ (N_of_ascii c = 223%N /\ upper_char c = [83%N; 83%N]).
Proof.
  unfold upper_char. set (n := N_of_ascii c).
  destruct ((97 <=? n) && (n <=? 122))%N; [left; eauto|].
  destruct (n =? 181)%N; [left; eauto|].
  destruct (n =? 223)%N eqn:E; [right; apply N.eqb_eq in E; now split|].
  destruct ((224 <=? n) && (n <=? 254) && negb (n =? 247))%N; [left; eauto|].
  destruct (n =? 255)%N; left; eauto.
Qed.

Lemma upper_ci_match (word : list N) :
  plain_word word = true ->
  forall s, upper s = word <-> ci_match word s = true.
Proof.
  induction word as [|x w IH]; intros Hp s.
  - destruct s as [|c s]; [simpl; tauto|].
    rewrite upper_cons. simpl ci_match. split; [|discriminate].
    destruct (upper_char_shape c) as [[h ->]|[_ ->]]; discriminate.
  - cbn [plain_word] in Hp. rewrite !andb_true_iff in Hp.
    destruct Hp as [[Hx Hss] Hw]. destruct Hx as [Hx1 Hx2].
    apply N.leb_le in Hx1. apply N.leb_le in Hx2.
    destruct s as [|c s]; [simpl; split; discriminate|].
    rewrite upper_cons. cbn [ci_match].
    pose proof (upper_char_letter c x (conj Hx1 Hx2)) as Hc.
    destruct (upper_char_shape c) as [[h Hh]|[H223 Hh]].
    + rewrite Hh in *. cbn [app]. rewrite andb_true_iff, <- (IH Hw s).
      rewrite orb_true_iff, !N.eqb_eq. split.
      * intros H. inversion H; subst. split; [|reflexivity].
        apply Hc. reflexivity.
      * intros [H1 H2]. apply Hc in H1. inversion H1. now rewrite H2.
    + rewrite Hh. cbn [app]. split.
      * intros H. injection H as Hx' Hw'. subst x w. discriminate.
      * rewrite H223. intros H. apply andb_true_iff in H. destruct H as [H _].
        apply orb_true_iff in H. rewrite !N.eqb_eq in H. lia.
Qed.

(** ** Commands built from tokens *)

Lemma split_token_rest (t rest : string) :
  token t = true ->
  rest = EmptyString \/ starts_space rest = true ->
  split (t ++ rest) = t :: split rest.
Proof.
  unfold token. intros Ht Hr. apply andb_true_iff in Ht.
  destruct Ht as [Hne Hns].
  induction t as [|c t IH]; [discriminate|]. clear Hne.
  cbn [no_space] in Hns. apply andb_true_iff in Hns.
  destruct Hns as [Hc Hns]. apply negb_true_iff in Hc.
  cbn [append]. rewrite split_cons, Hc.
  destruct t as [|c' t'].
  - cbn [append]. destruct Hr as [->|Hr]; [reflexivity|].
    destruct rest as [|d r]; [discriminate|].
    cbn [starts_space] in Hr. now rewrite Hr.
  - specialize (IH eq_refl Hns). cbn [append] in *.
    cbn [no_space] in Hns. apply andb_true_iff in Hns.
    destruct Hns as [Hc' _]. apply negb_true_iff in Hc'.
    now rewrite Hc', IH.
Qed.

Lemma split_set_line (k v : string) :
  token k = true -> token v = true ->
  split ("SET " ++ k ++ " " ++ v) = ["SET"; k; v].
Proof.
  intros Hk Hv.
  change ("SET " ++ k ++ " " ++ v) with ("SET" ++ (" " ++ k ++ " " ++ v)).
  rewrite split_token_rest by (try reflexivity; now right).
  change (" " ++ k ++ " " ++ v) with (String " " (k ++ " " ++ v)).
  rewrite split_cons. cbn [isspace]. change (isspace " ") with true. cbv iota.
  rewrite (split_token_rest k) by (try assumption; now right).
  change (" " ++ v) with (String " " v).
  rewrite split_cons. change (isspace " ") with true. cbv iota.
  rewrite <- (append_empty_r v) at 1.
  rewrite (split_token_rest v) by (try assumption; now left).
  reflexivity.
Qed.

Lemma split_verb_key (verb k : string) :
  token verb = true -> token k = true ->
  split (verb ++ " " ++ k) = [verb; k].
Proof.
  intros Hverb Hk.
  rewrite split_token_rest by (try assumption; now right).
  change (" " ++ k) with (String " " k).
  rewrite split_cons. change (isspace " ") with true. cbv iota.
  rewrite <- (append_empty_r k) at 1.
  rewrite (split_token_rest k) by (try assumption; now left).
  reflexivity.
Qed.

Lemma execute_tokens (command : string) (st : dict) (e : Env)
      (verb : string) (args : list string) :
  split command = verb :: args ->
  parse_and_execute command st e =
  if cp_eqb (upper verb) (codepoints "SET") then
    match args with
    | [key; value] => set key value st e
    | _ => ("ERROR: SET command requires 2 arguments: key and value" ++ nl,
            st, e)
    end
  else if cp_eqb (upper verb) (codepoints "GET") then
    match args with
    | [key] => (get key st, st, e)
    | _ => ("ERROR: GET command requires 1 argument: key" ++ nl, st, e)
    end
  else if cp_eqb (upper verb) (codepoints "REMOVE") then
    match args with
    | [key] => remove key st e
    | _ => ("ERROR: REMOVE command requires 1 argument: key" ++ nl, st, e)
    end
  else if cp_eqb (upper verb) (codepoints "PRINT") then
    (print_store st, st, e)
  else ("ERROR: Unknown command '" ++ verb ++ "'" ++ nl, st, e).
Proof.
  intros H. unfold parse_and_execute. rewrite split_strip, H.
  destruct (is_empty (strip command)) eqn:E; [|reflexivity].
  apply strip_empty_iff in E. congruence.
Qed.

(** X14: A command whose first token spells SET, GET, REMOVE or PRINT in any
    mix of upper- and lower-case ASCII letters is executed as that verb:
    with two arguments after it the SET is the call of [set], with one
    argument the GET and the REMOVE are the calls of [get] and [remove],
    and the PRINT is the call of [print_store]. *)
Theorem verbs_in_any_case (command verb : string) (args : list string)
        (st : dict) (e : Env) :
  split command = verb :: args ->
  (ci_match (codepoints "SET") verb = true ->
   forall k v, args = [k; v] -> parse_and_execute command st e = set k v st e)
  /\ (ci_match (codepoints "GET") verb = true ->
      forall k, args = [k] ->
      parse_and_execute command st e = (get k st, st, e))
  /\ (ci_match (codepoints "REMOVE") verb = true ->
      forall k, args = [k] -> parse_and_execute command st e = remove k st e)
  /\ (ci_match (codepoints "PRINT") verb = true ->
      parse_and_execute command st e = (print_store st, st, e)).
Proof.
  intros Hs. rewrite (execute_tokens command st e verb args Hs).
  repeat split.
  - intros Hm k v ->. apply upper_ci_match in Hm; [|reflexivity].
    now rewrite Hm.
  - intros Hm k ->. apply upper_ci_match in Hm; [|reflexivity].
    now rewrite Hm.
  - intros Hm k ->. apply upper_ci_match in Hm; [|reflexivity].
    now rewrite Hm.
  - intros Hm. apply upper_ci_match in Hm; [|reflexivity].
    now rewrite Hm.
Qed.

Lemma verbs_in_any_case_witness :
  split "sEt a 1" = ["sEt"; "a"; "1"]
  /\ parse_and_execute "sEt a 1" [] env0 = set "a" "1" [] env0.
Proof.
  split; [reflexivity|].
  apply (proj1 (verbs_in_any_case "sEt a 1" "sEt" ["a"; "1"] [] env0
                  eq_refl)
           eq_refl "a" "1" eq_refl).
Defined.

(** X15: For all tokens [k] and [v] and on any store: SET k v is confirmed, GET
    k then answers [v], REMOVE k is confirmed, and GET k then answers that
    the key is not found. *)
Theorem set_get_remove_get (k v : string) (st : dict) (e : Env) :
  token k = true ->
  token v = true ->
  uniq (keys st) = true ->
  fst (fst (session ["SET " ++ k ++ " " ++ v; "GET " ++ k;
                     "REMOVE " ++ k; "GET " ++ k] st e))
  = ["Added key '" ++ k ++ "' with value '" ++ v ++ "'" ++ nl;
     v;
     "Removed key '" ++ k ++ "'." ++ nl;
     "Key '" ++ k ++ "' not found."].
Proof.
  intros Hk Hv Hu. cbn [session].
  rewrite (execute_tokens _ st e "SET" [k; v]) by now apply split_set_line.
  change (cp_eqb (upper "SET") (codepoints "SET")) with true. cbv iota.
  unfold set at 1.
  set (st1 := dict_set st k v). set (e1 := print "[DEBUG] Finished save()" _).
  rewrite (execute_tokens _ st1 e1 "GET" [k])
    by (apply (split_verb_key "GET" k); [reflexivity|assumption]).
  change (cp_eqb (upper "GET") (codepoints "SET")) with false.
  change (cp_eqb (upper "GET") (codepoints "GET")) with true. cbv iota.
  rewrite (execute_tokens _ st1 e1 "REMOVE" [k])
    by (apply (split_verb_key "REMOVE" k); [reflexivity|assumption]).
  change (cp_eqb (upper "REMOVE") (codepoints "SET")) with false.
  change (cp_eqb (upper "REMOVE") (codepoints "GET")) with false.
  change (cp_eqb (upper "REMOVE") (codepoints "REMOVE")) with true. cbv iota.
  unfold remove. unfold st1 at 1. rewrite dict_mem_set.
  set (st2 := dict_del st1 k). set (e2 := save st2 e1).
  rewrite (execute_tokens _ st2 e2 "GET" [k])
    by (apply (split_verb_key "GET" k); [reflexivity|assumption]).
  change (cp_eqb (upper "GET") (codepoints "SET")) with false.
  change (cp_eqb (upper "GET") (codepoints "GET")) with true. cbv iota.
  cbn [fst snd].
  assert (Hg1 : get k st1 = v) by apply get_after_set.
  assert (Hg2 : get k st2 = "Key '" ++ k ++ "' not found.").
  { unfold get.
    assert (Hd : dict_mem st2 k = false).
    { apply dict_mem_del. apply uniq_NoDup, NoDup_dict_set.
      now apply uniq_NoDup. }
    unfold dict_mem in Hd. now destruct (dict_get st2 k). }
  now rewrite Hg1, Hg2.
Qed.

Lemma set_get_remove_get_witness :
  fst (fst (session ["SET " ++ "colour" ++ " " ++ "blue"; "GET " ++ "colour";
                     "REMOVE " ++ "colour"; "GET " ++ "colour"]
                    [("size", "9")] env0))
  = ["Added key '" ++ "colour" ++ "' with value '" ++ "blue" ++ "'" ++ nl;
     "blue";
     "Removed key '" ++ "colour" ++ "'." ++ nl;
     "Key '" ++ "colour" ++ "' not found."].
Proof.
  apply (set_get_remove_get "colour" "blue" [("size", "9")] env0);
    reflexivity.
Defined.

(** * Restarting the server *)

Lemma fresh_load_emit (ev : event) (e : Env) :
  fresh_load (emit ev e) = fresh_load e.
Proof. now rewrite !fresh_load_eq. Qed.

Lemma rfail_after_set (k v : string) (st : dict) (e : Env) :
  rfail (snd (set k v st e)) = rfail e.
Proof.
  unfold set. cbn [snd]. unfold print at 1. unfold emit at 1. cbn [rfail].
  now rewrite save_keeps_rfail.
Qed.

Lemma init_readable (e : Env) :
  rfail e = None ->
  init e = (fresh_load e,
            match file e with Some _ => emit OpenRead e | None => e end).
Proof.
  intros Hr. unfold fresh_load, init, load.
  destruct (file e); [|reflexivity]. cbn [rfail emit]. now rewrite Hr.
Qed.

Lemma durable_init (e : Env) :
  wfail e = None -> rfail e = None ->
  durable (fst (init e)) (snd (init e)).
Proof.
  intros Hw Hr. rewrite (init_readable e Hr). cbn [fst snd].
  unfold durable. repeat split.
  - apply uniq_NoDup. apply fresh_load_NoDup.
  - apply fresh_load_clean.
  - destruct (file e); [apply fresh_load_emit|reflexivity].
  - now destruct (file e).
  - now destruct (file e).
Qed.

Lemma durable_set (k v : string) (st : dict) (e : Env) :
  token k = true -> token v = true -> durable st e ->
  durable (snd (fst (set k v st e))) (snd (set k v st e)).
Proof.
  intros Hk Hv (Hs & Hl & Hw & Hr).
  pose proof (token_clean k v Hk Hv) as Hc.
  pose proof (restart_after_set k v st e Hs Hc Hw Hr) as H.
  pose proof (wfail_after_set k v st e) as W.
  pose proof (rfail_after_set k v st e) as R.
  destruct (set k v st e) as [[r st1] e1] eqn:S. cbn [fst snd] in *.
  assert (E : st1 = dict_set st k v) by (unfold set in S; congruence).
  destruct Hs as [Hu Hcs]. repeat split; try congruence.
  - rewrite E. apply uniq_NoDup, NoDup_dict_set. now apply uniq_NoDup.
  - rewrite E. now apply clean_dict_set.
Qed.

Lemma durable_remove (k : string) (st : dict) (e : Env) :
  durable st e ->
  durable (snd (fst (remove k st e))) (snd (remove k st e)).
Proof.
  intros (Hs & Hl & Hw & Hr). unfold remove.
  destruct (dict_mem st k); cbn [fst snd]; [|unfold durable; tauto].
  pose proof (store_ok_del st k Hs) as Hd. repeat split; try apply Hd.
  - now apply roundtrip_ok.
  - now rewrite wfail_after_save.
  - now rewrite save_keeps_rfail.
Qed.

Lemma durable_command (command : string) (st : dict) (e : Env) :
  durable st e ->
  durable (snd (fst (parse_and_execute command st e)))
          (snd (parse_and_execute command st e)).
Proof.
  intros H. unfold parse_and_execute.
  destruct (is_empty (strip command)); [exact H|].
  pose proof (split_tokens (strip command)) as Ht.
  destruct (split (strip command)) as [|verb args]; [exact H|].
  destruct (cp_eqb (upper verb) (codepoints "SET")).
  - destruct args as [|k [|v [|x r]]]; try exact H.
    cbn [forallb] in Ht. rewrite !andb_true_iff in Ht.
    destruct Ht as (_ & Hk & Hv & _). now apply durable_set.
  - destruct (cp_eqb (upper verb) (codepoints "GET")).
    + destruct args as [|k [|x r]]; exact H.
    + destruct (cp_eqb (upper verb) (codepoints "REMOVE")).
      * destruct args as [|k [|x r]]; try exact H. now apply durable_remove.
      * destruct (cp_eqb (upper verb) (codepoints "PRINT")); exact H.
Qed.

Lemma durable_session (commands : list string) (st : dict) (e : Env) :
  durable st e ->
  durable (snd (fst (session commands st e))) (snd (session commands st e)).
Proof.
  revert st e. induction commands as [|c cs IH]; intros st e H; [exact H|].
  cbn [session]. pose proof (durable_command c st e H) as H1.
  destruct (parse_and_execute c st e) as [[r st1] e1]. cbn [fst snd] in H1.
  specialize (IH st1 e1 H1).
  destruct (session cs st1 e1) as [[rs st2] e2]. exact IH.
Qed.

(** X16: On a file that can be written and read, a server that has started and
    has answered any commands holds a mapping that a restart would find: a
    fresh store built on the file at that moment is the mapping in
    memory. *)
Theorem restart_finds_the_mapping (e : Env) (commands : list string) :
  wfail e = None ->
  rfail e = None ->
  let '(st0, e1) := init e in
  let '(_, st, e') := session commands st0 e1 in
  fresh_load e' = st.
Proof.
  intros Hw Hr. pose proof (durable_init e Hw Hr) as H0.
  destruct (init e) as [st0 e1]. cbn [fst snd] in H0.
  pose proof (durable_session commands st0 e1 H0) as H.
  destruct (session commands st0 e1) as [[rs st] e']. apply H.
Qed.

Lemma restart_finds_the_mapping_witness :
  let e := mkEnv (Some ("a" ++ tab ++ "1" ++ nl ++ "junk" ++ nl))
                 None None [] in
  let '(st0, e1) := init e in
  let '(_, st, e') :=
    session ["SET b 2"; "GET a"; "REMOVE a"; "bogus"; "SET c 3"] st0 e1 in
  fresh_load e' = st.
Proof.
  apply (restart_finds_the_mapping
           (mkEnv (Some ("a" ++ tab ++ "1" ++ nl ++ "junk" ++ nl))
                  None None [])); reflexivity.
Defined.

(** * Connections *)

Lemma answer_env_free (command : string) (st : dict) (e e' : Env) :
  fst (parse_and_execute command st e) = fst (parse_and_execute command st e').
Proof.
  unfold parse_and_execute.
  destruct (is_empty (strip command)); [reflexivity|].
  destruct (split (strip command)) as [|verb args]; [reflexivity|].
  destruct (cp_eqb (upper verb) (codepoints "SET")).
  - destruct args as [|k [|v [|x r]]]; reflexivity.
  - destruct (cp_eqb (upper verb) (codepoints "GET")).
    + destruct args as [|k [|x r]]; reflexivity.
    + destruct (cp_eqb (upper verb) (codepoints "REMOVE")).
      * destruct args as [|k [|x r]]; try reflexivity.
        unfold remove. now destruct (dict_mem st k).
      * now destruct (cp_eqb (upper verb) (codepoints "PRINT")).
Qed.

Lemma session_env_free (commands : list string) (st : dict) (e e' : Env) :
  fst (session commands st e) = fst (session commands st e').
Proof.
  revert st e e'. induction commands as [|c cs IH]; intros st e e';
    [reflexivity|].
  cbn [session]. pose proof (answer_env_free c st e e') as H.
  destruct (parse_and_execute c st e) as [[r st1] e1].
  destruct (parse_and_execute c st e') as [[r' st1'] e1'].
  cbn [fst] in H. inversion H; subst r' st1'.
  specialize (IH st1 e1 e1').
  destruct (session cs st1 e1) as [[rs st2] e2].
  destruct (session cs st1 e1') as [[rs' st2'] e2'].
  cbn [fst] in *. now inversion IH.
Qed.

Lemma loop_runs_session (addr : string) (script : list socket_event) :
  forall (st : dict) (e e' : Env),
    fst (fst (fst (handle_loop addr script st e)))
    = fst (fst (session (delivered script) st e'))
    /\ snd (fst (fst (handle_loop addr script st e)))
       = snd (fst (session (executed script) st e')).
Proof.
  induction script as [|ev rest IH]; intros st e e'; [now split|].
  destruct ev as [|msg|text [msg|]]; try (now split).
  - cbn [handle_loop executed delivered]. unfold is_quit.
    destruct (String.eqb (lower (strip text)) "quit"); [now split|].
    set (e1 := print _ e).
    pose proof (answer_env_free (strip text) st e1 e') as H.
    cbn [session].
    destruct (parse_and_execute (strip text) st e1) as [[r st1] e2].
    destruct (parse_and_execute (strip text) st e') as [[r' st1'] e2'].
    cbn [fst] in H. inversion H; subst. now split.
  - cbn [handle_loop executed delivered]. unfold is_quit.
    destruct (String.eqb (lower (strip text)) "quit"); [now split|].
    set (e1 := print _ e).
    pose proof (answer_env_free (strip text) st e1 e') as H.
    cbn [session].
    destruct (parse_and_execute (strip text) st e1) as [[r st1] e2].
    destruct (parse_and_execute (strip text) st e') as [[r' st1'] e2'].
    cbn [fst] in H. inversion H; subst r' st1'.
    set (e3 := print _ e2).
    specialize (IH st1 e3 e2'). destruct IH as [IH1 IH2].
    destruct (handle_loop addr rest st1 e3) as [[[sent st2] e4] ended].
    destruct (session (delivered rest) st1 e2') as [[rs st3] e5].
    destruct (session (executed rest) st1 e2') as [[rs' st3'] e5'].
    cbn [fst snd] in *. now subst.
Qed.

(** X17: What a connection does to the store is what its messages do when they
    are executed in turn, each stripped, up to the first turn that ends
    the session (no data, an exception, a quit); and the answers the client
    gets are the answers to those of them whose [sendall] returned. A
    command whose answer could not be sent has been executed all the
    same. *)
Theorem connection_runs_session (addr : string) (script : list socket_event)
        (st : dict) (e : Env) :
  let '(sent, st', _, _) := handle_client addr script st e in
  sent = fst (fst (session (delivered script) st e))
  /\ st' = snd (fst (session (executed script) st e)).
Proof.
  unfold handle_client.
  pose proof (loop_runs_session addr script st
                (print ("Connection from " ++ addr) e) e) as H.
  destruct (handle_loop addr script st (print ("Connection from " ++ addr) e))
    as [[[sent st'] e'] ended].
  exact H.
Qed.

Lemma durable_print (line : string) (st : dict) (e : Env) :
  durable st e -> durable st (print line e).
Proof.
  intros (Hs & Hl & Hw & Hr). repeat split; try apply Hs; try assumption.
  now rewrite fresh_load_print.
Qed.

Lemma loop_keeps_durable (addr : string) (script : list socket_event) :
  forall (st : dict) (e : Env),
    durable st e ->
    durable (snd (fst (fst (handle_loop addr script st e))))
            (snd (fst (handle_loop addr script st e))).
Proof.
  induction script as [|ev rest IH]; intros st e H; [exact H|].
  destruct ev as [|msg|text serr]; cbn [handle_loop fst snd].
  - now apply durable_print.
  - now apply durable_print.
  - destruct (String.eqb (lower (strip text)) "quit").
    + cbn [fst snd]. now do 2 apply durable_print.
    + pose proof (durable_command (strip text) st
                    (print ("Received from " ++ addr ++ ": " ++ strip text) e)
                    (durable_print _ _ _ H)) as H1.
      destruct (parse_and_execute (strip text) st _) as [[r st1] e1].
      cbn [fst snd] in H1. destruct serr as [msg|].
      * cbn [fst snd]. now apply durable_print.
      * specialize (IH st1 _ (durable_print
                                ("Response sent to " ++ addr ++ ": "
                                 ++ strip r) _ _ H1)).
        destruct (handle_loop addr rest st1 _) as [[[sent st2] e2] ended].
        exact IH.
Qed.

(** X18: On a file that can be written and read, no connection, however it
    goes and however it ends, breaks what a restart relies on: if the
    mapping in memory is clean with pairwise different keys and a fresh
    store built on the file is that mapping before the connection, both
    hold after it. *)
Theorem connection_keeps_durable (addr : string) (script : list socket_event)
        (st : dict) (e : Env) :
  wfail e = None ->
  rfail e = None ->
  store_ok st ->
  fresh_load e = st ->
  let '(_, st', e', _) := handle_client addr script st e in
  store_ok st' /\ fresh_load e' = st'.
Proof.
  intros Hw Hr Hs Hl.
  assert (H : durable st e) by (unfold durable; tauto).
  unfold handle_client.
  pose proof (loop_keeps_durable addr script st
                (print ("Connection from " ++ addr) e)
                (durable_print _ _ _ H)) as H1.
  destruct (handle_loop addr script st (print ("Connection from " ++ addr) e))
    as [[[sent st'] e'] ended].
  cbn [fst snd] in H1.
  assert (H2 : durable st'
                 (if ended
                  then print ("Connection with " ++ addr ++ " closed.") e'
                  else e'))
    by (destruct ended; [now apply durable_print|exact H1]).
  destruct H2 as (H3 & H4 & _). now split.
Qed.

Lemma connection_keeps_durable_witness :
  let '(_, st', e', _) :=
    handle_client "peer"
      [Message "SET a 1" None; Message " remove b " None;
       Message "SET c 3" (Some "broken pipe"); Message "SET d 4" None]
      [("b", "2")]
      (mkEnv (Some ("b" ++ tab ++ "2" ++ nl)) None None []) in
  store_ok st' /\ fresh_load e' = st'.
Proof.
  apply (connection_keeps_durable "peer"
           [Message "SET a 1" None; Message " remove b " None;
            Message "SET c 3" (Some "broken pipe"); Message "SET d 4" None]
           [("b", "2")]
           (mkEnv (Some ("b" ++ tab ++ "2" ++ nl)) None None []));
    [reflexivity|reflexivity|split; reflexivity|reflexivity].
Defined.

(** ** quit in any letter case *)

Lemma N_of_ascii_bound (c : ascii) : (N_of_ascii c < 256)%N.
Proof. destruct c as [[] [] [] [] [] [] [] []]; reflexivity. Qed.

Lemma lower_char_letter (c : ascii) (x : N) :
  (65 <= x <= 90)%N ->
  lower_char c = ascii_of_N (x + 32)
  <-> (N_of_ascii c = x \/ N_of_ascii c = x + 32)%N.
Proof.
  intros Hx. pose proof (N_of_ascii_bound c) as Hb.
  assert (Hinj : forall a b : N, (a < 256)%N -> (b < 256)%N ->
                 ascii_of_N a = ascii_of_N b -> a = b).
  { intros a b Ha Hb' H. apply (f_equal N_of_ascii) in H.
    now rewrite !N_ascii_embedding in H. }
  unfold lower_char. set (n := N_of_ascii c) in *.
  destruct ((65 <=? n) && (n <=? 90))%N eqn:E1.
  { apply andb_true_iff in E1. destruct E1 as [A B].
    apply N.leb_le in A. apply N.leb_le in B. split.
    - intros H. apply Hinj in H; lia.
    - intros [H|H]; [now rewrite H|lia]. }
  apply andb_false_iff in E1. rewrite !N.leb_gt in E1.
  destruct ((192 <=? n) && (n <=? 222) && negb (n =? 215))%N eqn:E2.
  { rewrite !andb_true_iff in E2. destruct E2 as [[A B] _].
    apply N.leb_le in A. apply N.leb_le in B. split.
    - intros H. apply Hinj in H; lia.
    - lia. }
  split.
  - intros H. right. unfold n. rewrite H. apply N_ascii_embedding. lia.
  - intros [H|H]; [lia|]. rewrite <- H. unfold n.
    symmetry. apply ascii_N_embedding.
Qed.

Lemma lower_ci_match (word : list N) :
  forallb (fun x => (65 <=? x) && (x <=? 90))%N word = true ->
  forall s,
    lower s = string_of_list_ascii (map (fun x => ascii_of_N (x + 32)) word)
    <-> ci_match word s = true.
Proof.
  induction word as [|x w IH]; intros Hp s.
  - destruct s; simpl; split; congruence.
  - cbn [forallb] in Hp. rewrite !andb_true_iff in Hp.
    destruct Hp as [[Hx1 Hx2] Hw].
    apply N.leb_le in Hx1. apply N.leb_le in Hx2.
    destruct s as [|c s]; [simpl; split; discriminate|].
    cbn [lower map string_of_list_ascii ci_match].
    pose proof (lower_char_letter c x (conj Hx1 Hx2)) as Hc.
    rewrite andb_true_iff, orb_true_iff, !N.eqb_eq, <- (IH Hw s), <- Hc.
    split.
    + intros H. now inversion H.
    + intros [H1 H2]. now rewrite H1, H2.
Qed.

(** X19: A message ends the session as a quit exactly when, stripped, it spells
    quit in any mix of upper and lower case letters. *)
Theorem quit_in_any_case (text : string) :
  is_quit text = true <-> ci_match (codepoints "QUIT") (strip text) = true.
Proof.
  unfold is_quit. rewrite String.eqb_eq.
  apply (lower_ci_match (codepoints "QUIT")). reflexivity.
Qed.

(** X25: The store of the server has pairwise different keys and only entries
    that the file format carries when it is loaded, whatever the file, and
    every connection, however it goes, leaves it so, whether or not the
    file can be read or written. *)
Theorem store_always_ok (e : Env) (addr : string)
        (script : list socket_event) :
  store_ok (fst (init e))
  /\ forall (st : dict) (e' : Env),
       store_ok st ->
       let '(_, st', _, _) := handle_client addr script st e' in
       store_ok st'.
Proof.
  split.
  - split; [apply uniq_NoDup, fresh_load_NoDup|apply fresh_load_clean].
  - intros st e' Hs. unfold handle_client.
    pose proof (loop_runs_session addr script st
                  (print ("Connection from " ++ addr) e') e') as [_ H].
    destruct (handle_loop addr script st
                (print ("Connection from " ++ addr) e'))
      as [[[sent st'] e2] ended].
    cbn [fst snd] in H. rewrite H. now apply session_ok.
Qed.

(** * Further properties of [save], of a failed [load] and of threads *)

(** X20: [save] writes one line for each entry, in the order of the mapping:
    the key, a tab, the value, a newline. *)
Theorem save_one_line_per_entry (st : dict) (e : Env) :
  store_ok st ->
  wfail e = None ->
  exists content,
    file (save st e) = Some content
    /\ readlines content
       = map (fun kv => fst kv ++ tab ++ snd kv ++ nl) st.
Proof.
  intros [_ Hc] Hw. exists (render st). split.
  - now apply save_file_ok.
  - now apply readlines_render.
Qed.

Lemma save_one_line_per_entry_witness :
  exists content,
    file (save [("a", "1"); ("b", "x y")] env0) = Some content
    /\ readlines content
       = map (fun kv => fst kv ++ tab ++ snd kv ++ nl)
             [("a", "1"); ("b", "x y")].
Proof.
  apply (save_one_line_per_entry [("a", "1"); ("b", "x y")] env0);
    [split|]; reflexivity.
Defined.

(** X21: When the file is there but reading it fails, be it that [open]
    raises or that the reading raises after some lines, the error is
    printed and the store starts with the entries of the lines read before
    the failure (none when [open] raised).  The first [set] whose write
    succeeds then leaves a file that holds those entries and the new one:
    what the lines not read held is lost. *)
Theorem unreadable_file_is_overwritten (k v msg content : string) (e : Env) :
  file e = Some content ->
  rfail e = Some msg ->
  wfail e = None ->
  let '(st0, e1) := init e in
  st0 = match rtorn e with
        | Some n => fold_left load_line (firstn n (readlines content)) []
        | None => []
        end
  /\ In (Print ("Error loading data: " ++ msg)) (trace e1)
  /\ let '(_, st1, e2) := set k v st0 e1 in
     st1 = dict_set st0 k v /\ file e2 = Some (render (dict_set st0 k v)).
Proof.
  intros Hf Hr Hw. unfold init, load. rewrite Hf. cbn [rfail rtorn emit].
  rewrite Hr. repeat split.
  - unfold print, emit. cbn [trace]. apply in_or_app. right. now left.
  - unfold set, print, emit, save. cbn [file wfail]. now rewrite Hw.
Qed.

Lemma unreadable_file_is_overwritten_witness :
  let e := mkWorld (Some ("old" ++ tab ++ "data" ++ nl
                          ++ "more" ++ tab ++ "stuff" ++ nl))
                   None (Some "input/output error") [] None (Some 1) in
  let '(st0, e1) := init e in
  st0 = [("old", "data")]
  /\ In (Print ("Error loading data: " ++ "input/output error")) (trace e1)
  /\ let '(_, st1, e2) := set "a" "1" st0 e1 in
     st1 = [("old", "data"); ("a", "1")]
     /\ file e2 = Some ("old" ++ tab ++ "data" ++ nl ++ "a" ++ tab ++ "1" ++ nl).
Proof.
  apply (unreadable_file_is_overwritten "a" "1" "input/output error"
           ("old" ++ tab ++ "data" ++ nl ++ "more" ++ tab ++ "stuff" ++ nl)
           (mkWorld (Some ("old" ++ tab ++ "data" ++ nl
                           ++ "more" ++ tab ++ "stuff" ++ nl))
                    None (Some "input/output error") [] None (Some 1)));
    reflexivity.
Defined.

Lemma filter_at_most_one {A : Type} (P : A -> bool) (l : list A) :
  (forall i j x y, nth_error l i = Some x -> nth_error l j = Some y ->
                   P x = true -> P y = true -> i = j) ->
  length (filter P l) <= 1.
Proof.
  induction l as [|a l IH]; intros H; [simpl; lia|].
  simpl. destruct (P a) eqn:Pa.
  - assert (Hn : filter P l = []).
    { destruct (filter P l) as [|b r] eqn:F; [reflexivity|].
      assert (Hb : In b (filter P l)) by (rewrite F; now left).
      apply filter_In in Hb. destruct Hb as [Hin Pb].
      apply In_nth_error in Hin. destruct Hin as [j Hj].
      specialize (H 0 (S j) a b eq_refl Hj Pa Pb). discriminate. }
    rewrite Hn. simpl. lia.
  - apply IH. intros i j x y Hi Hj Px Py.
    specialize (H (S i) (S j) x y Hi Hj Px Py). lia.
Qed.

(** X22: Under any schedule, at any moment, at most one thread is inside the
    block that [with self.lock] guards. *)
Theorem at_most_one_in_block (key : string) (values : list string)
        (st0 : dict) (e0 : Env) (schedule : list nat) :
  length (filter (fun th => in_cs (snd th))
                 (cthreads (run key schedule (start st0 e0 values)))) <= 1.
Proof.
  apply filter_at_most_one. intros i j [v p] [v' p'] Hi Hj Hp Hp'.
  apply (inv_exclusive key values st0 e0
           (run key schedule (start st0 e0 values)) i j v v' p p');
    try assumption.
  apply inv_reach.
Qed.

(** X23: Under any schedule: at a moment when no thread holds the lock and some
    call has returned, the file, if it can be written, holds exactly what
    [save] writes for the mapping of that moment. *)
Theorem file_whole_when_lock_free (key : string) (values : list string)
        (st0 : dict) (e0 : Env) (schedule : list nat) (t : nat)
        (v r : string) :
  let s := run key schedule (start st0 e0 values) in
  clock s = None ->
  nth_error (cthreads s) t = Some (v, Done r) ->
  wfail e0 = None ->
  agrees (cstore s) (cenv s).
Proof.
  intros s Hl Ht Hw.
  apply (inv_free key values st0 e0 s (inv_reach key values st0 e0 schedule));
    try assumption.
  now exists t, v, r.
Qed.

Lemma file_whole_when_lock_free_witness :
  let s := run "k" [0; 1; 0; 0; 0; 0; 0; 0]
               (start [("x", "y")] env0 ["1"; "2"]) in
  agrees (cstore s) (cenv s).
Proof.
  apply (file_whole_when_lock_free "k" ["1"; "2"] [("x", "y")] env0
           [0; 1; 0; 0; 0; 0; 0; 0] 0 "1"
           ("Added key 'k' with value '1'" ++ nl)); reflexivity.
Defined.

(** X24: Under any schedule: as long as a call has not returned, some thread can
    run its next statement, and running it brings the end nearer. *)
Theorem no_deadlock (key : string) (values : list string)
        (st0 : dict) (e0 : Env) (schedule : list nat) :
  let s := run key schedule (start st0 e0 values) in
  all_done s = false ->
  exists t s', step key t s = Some s' /\ measure st0 s' < measure st0 s.
Proof.
  intros s Hd.
  pose proof (inv_reach key values st0 e0 schedule) as I.
  destruct (progress key values st0 e0 s I Hd) as (t & s' & Hs).
  exists t, s'. split; [exact Hs|].
  apply (step_measure key values st0 e0 s s' t I Hs).
Qed.

Lemma no_deadlock_witness :
  let s := run "k" [1; 0; 1; 0] (start [] env0 ["1"; "2"]) in
  exists t s', step "k" t s = Some s' /\ measure [] s' < measure [] s.
Proof.
  apply (no_deadlock "k" ["1"; "2"] [] env0 [1; 0; 1; 0]). reflexivity.
Defined.

(** X26: Saving a mapping and loading the file into a fresh store gives the
    mapping back exactly when every entry of it is one the file format
    carries: a key that is not empty, has no tab and no line break and does
    not start with whitespace, a value that is not empty, has no line break
    and does not end with whitespace. *)
Theorem mapping_roundtrip_iff_clean (st : dict) (e : Env) :
  uniq (keys st) = true ->
  wfail e = None ->
  rfail e = None ->
  (fresh_load (save st e) = st <-> clean_store st = true).
Proof.
  intros Hu Hw Hr. split.
  - intros H. rewrite <- H. apply fresh_load_clean.
  - intros H. apply roundtrip_ok; try assumption. now split.
Qed.

Lemma mapping_roundtrip_iff_clean_witness :
  fresh_load (save [("a", "1"); ("b", " 2")] env0) = [("a", "1"); ("b", " 2")]
  <-> clean_store [("a", "1"); ("b", " 2")] = true.
Proof.
  apply (mapping_roundtrip_iff_clean [("a", "1"); ("b", " 2")] env0);
    reflexivity.
Defined.
